(* ====================================================================== *)
(* Randomized algebraic identity testing (CH-7):                           *)
(*   - Freivalds' matrix-product verifier   (freivalds_technique.cpp)      *)
(*   - Edmonds / Schwartz-Zippel perfect-matching test                     *)
(*                                          (perfect_bipartite.cpp)        *)
(* A shallow embedding of the two C++ programs and the proofs of their     *)
(* algebraic guarantees.                                                   *)
(*                                                                         *)
(* Machine integers are modelled as Z with the wrap-around written out     *)
(* (int: 32 bits, long long: 64 bits, two's complement: what the hardware  *)
(* computes where C++ leaves signed overflow undefined); `%` is C++'s      *)
(* truncating remainder, Z.rem.  std::vector is seq; an index outside a    *)
(* vector is undefined behaviour in C++, which freivaldsVerify and         *)
(* hasPerfectMatching report as None.  The random generator is an explicit *)
(* input: the sequence of values that distribution(generator) yields.      *)
(* ====================================================================== *)

From Stdlib Require Import ZArith Lia Zquot String.
From HB Require Import structures.
From mathcomp Require Import ssreflect ssrfun ssrbool eqtype ssrnat seq choice.
From mathcomp Require Import fintype bigop div prime binomial finfun.
From mathcomp Require Import fingroup perm ssralg matrix.

Set Implicit Arguments.
Unset Strict Implicit.
Unset Printing Implicit Defensive.

(* ---------------------------------------------------------------------- *)
(* Z as a commutative ring, so that sums and determinants of integer       *)
(* matrices are MathComp's.                                                 *)
(* ---------------------------------------------------------------------- *)

Definition Z_pickle (z : Z) : nat + nat :=
  match z with
  | Z0 => inl 0
  | Zpos q => inl (Pos.to_nat q)
  | Zneg q => inr (Pos.to_nat q)
  end.

Definition Z_unpickle (s : nat + nat) : Z :=
  match s with
  | inl n => Z.of_nat n
  | inr n => Z.opp (Z.of_nat n)
  end.

Lemma Z_pickleK : cancel Z_pickle Z_unpickle.
Proof. by case=> [|q|q] //=; rewrite positive_nat_Z. Qed.

HB.instance Definition _ := Countable.copy Z (can_type Z_pickleK).

HB.instance Definition _ :=
  GRing.isZmodule.Build Z Z.add_assoc Z.add_comm Z.add_0_l Z.add_opp_diag_l.

HB.instance Definition _ :=
  GRing.Zmodule_isComNzRing.Build Z
    Z.mul_assoc Z.mul_comm Z.mul_1_l Z.mul_add_distr_r isT.

Lemma ZaddE (x y : Z) : (x + y)%R = (x + y)%Z. Proof. by []. Qed.
Lemma ZmulE (x y : Z) : (x * y)%R = (x * y)%Z. Proof. by []. Qed.
Lemma ZoppE (x : Z) : (- x)%R = (- x)%Z. Proof. by []. Qed.
Lemma Z0E : (0%R : Z) = 0%Z. Proof. by []. Qed.
Lemma Z1E : (1%R : Z) = 1%Z. Proof. by []. Qed.

Definition ZringE := (ZaddE, ZmulE, ZoppE, Z0E, Z1E).

(* ---------------------------------------------------------------------- *)
(* Loops.  `for (i = lo; i < lo + cnt; ++i) body` over a state S; a body   *)
(* may leave the function early with a value of E (a `return` inside the   *)
(* loop, or an access outside a vector).                                    *)
(* ---------------------------------------------------------------------- *)

Fixpoint for_loop {E S : Type} (cnt i : nat) (body : nat -> S -> E + S)
    (s : S) : E + S :=
  if cnt is c.+1 then
    match body i s with
    | inl e => inl e
    | inr s' => for_loop c i.+1 body s'
    end
  else inr s.

Fixpoint for_range {S : Type} (cnt i : nat) (body : nat -> S -> S) (s : S) : S :=
  if cnt is c.+1 then for_range c i.+1 body (body i s) else s.

Lemma for_loop_inv {E S : Type} (I : nat -> S -> Prop) (Q : E -> Prop)
    (body : nat -> S -> E + S) cnt i s :
  I i s ->
  (forall j t, i <= j < i + cnt -> I j t ->
     match body j t with inl e => Q e | inr t' => I j.+1 t' end) ->
  match for_loop cnt i body s with inl e => Q e | inr t => I (i + cnt) t end.
Proof.
elim: cnt i s => [|c IH] i s Hi Hstep /=; first by rewrite addn0.
have ii : i <= i < i + c.+1 by rewrite leqnn addnS ltnS leq_addr.
have := Hstep i s ii Hi.
case: (body i s) => [e|s'] // Hs'.
rewrite addnS -addSn; apply: IH => // j t /andP[ij jc] Ht.
by apply: Hstep => //; rewrite (ltnW ij) addnS -addSn.
Qed.

Lemma for_range_inv {S : Type} (I : nat -> S -> Prop)
    (body : nat -> S -> S) cnt i s :
  I i s ->
  (forall j t, i <= j < i + cnt -> I j t -> I j.+1 (body j t)) ->
  I (i + cnt) (for_range cnt i body s).
Proof.
elim: cnt i s => [|c IH] i s Hi Hstep /=; first by rewrite addn0.
rewrite addnS -addSn; apply: IH.
  by apply: Hstep => //; rewrite leqnn addnS ltnS leq_addr.
move=> j t /andP[ij jc] Ht.
by apply: Hstep => //; rewrite (ltnW ij) addnS -addSn.
Qed.

Lemma for_loop_ok {E S : Type} (I : nat -> S -> Prop)
    (body : nat -> S -> E + S) cnt i s :
  I i s ->
  (forall j t, i <= j < i + cnt -> I j t ->
     exists2 t', body j t = inr t' & I j.+1 t') ->
  exists2 t, for_loop cnt i body s = inr t & I (i + cnt) t.
Proof.
move=> Hi Hstep.
have := @for_loop_inv E S I (fun=> False) body cnt i s Hi.
case: (for_loop cnt i body s) => [e|t] H.
  by case: H => j t ij /(Hstep _ _ ij) [t' ->].
by exists t => //; apply: H => j t' ij /(Hstep _ _ ij) [t'' ->].
Qed.

(* two loops whose bodies go in step, the states related by R, go in step *)
Lemma for_loop_sim {E S T : Type} (R : S -> T -> Prop)
    (body1 : nat -> S -> E + S) (body2 : nat -> T -> E + T) cnt i s t :
  (forall j s t, R s t ->
     match body1 j s, body2 j t with
     | inl e1, inl e2 => e1 = e2
     | inr s', inr t' => R s' t'
     | _, _ => False
     end) ->
  R s t ->
  match for_loop cnt i body1 s, for_loop cnt i body2 t with
  | inl e1, inl e2 => e1 = e2
  | inr s', inr t' => R s' t'
  | _, _ => False
  end.
Proof.
move=> Hstep; elim: cnt i s t => [|c IH] i s t Rst //=.
have := Hstep i s t Rst.
by case: (body1 i s) => [e1|s']; case: (body2 i t) => [e2|t'] //; apply: IH.
Qed.

(* ---------------------------------------------------------------------- *)
(* Both programs declare Matrix as a vector of vectors of integers (of int  *)
(* in freivalds_technique.cpp, of long long in perfect_bipartite.cpp).      *)
(* ---------------------------------------------------------------------- *)

Definition Matrix := seq (seq Z).

(* M[i][j] where it exists, 0 elsewhere *)
Definition get (M : Matrix) (i j : nat) : Z := nth 0%Z (nth [::] M i) j.

(* n x n: n rows, each of length n *)
Definition square (n : nat) (M : Matrix) : bool :=
  (size M == n) && all (fun row => size row == n) M.

(* an index outside a vector: undefined behaviour *)
Inductive fault := OutOfBounds.

(* f 0 + ... + f (n-1), exact *)
Definition sumZ (n : nat) (f : nat -> Z) : Z :=
  foldr (fun j acc => (f j + acc)%Z) 0%Z (iota 0 n).

Lemma sumZE n f : sumZ n f = (\sum_(0 <= j < n) f j)%R.
Proof. by rewrite unlock /sumZ /reducebig /index_iota subn0. Qed.

(* ====================================================================== *)
(* freivalds_technique.cpp                                                 *)
(* ====================================================================== *)

Module Freivalds.

(* using Vector = std::vector<int>; *)
Definition Vector := seq Z.

(* int: 32 bits, two's complement; + and * wrap around *)
Definition wrap32 (z : Z) : Z := ((z + 2 ^ 31) mod 2 ^ 32 - 2 ^ 31)%Z.
Definition int_add (a b : Z) : Z := wrap32 (a + b).
Definition int_mul (a b : Z) : Z := wrap32 (a * b).

(* result[i] += M[i][j] * r[j];   (M[i] exists: i < M.size()) *)
Definition mvm_body (M : Matrix) (r : Vector) (i j : nat) (result : Vector)
    : fault + Vector :=
  let row := nth [::] M i in
  if (j < size row) && (j < size r) then
    inr (set_nth 0%Z result i
           (int_add (nth 0%Z result i) (int_mul (nth 0%Z row j) (nth 0%Z r j))))
  else inl OutOfBounds.

Definition matrixVectorMultiply (M : Matrix) (r : Vector) : option Vector :=
  let n := size M in
  let result := nseq n 0%Z in
  match for_loop n 0 (fun i => for_loop n 0 (mvm_body M r i)) result with
  | inr result => Some result
  | inl _ => None
  end.

(* the test of line 41; true means "Invalid dimensions" *)
Definition invalid_dimensions (A B C : Matrix) : bool :=
  let n := size A in
  [|| n == 0, size (nth [::] A 0) != n, size B != n,
      size (nth [::] B 0) != n, size C != n | size (nth [::] C 0) != n].

(* rnd i is the i-th value that distribution(generator) yields (0 or 1);
   None is undefined behaviour (a read outside a row). *)
Definition freivaldsVerify (A B C : Matrix) (rnd : nat -> Z) : option bool :=
  let n := size A in
  if invalid_dimensions A B C then Some false
  else
    let r := mkseq rnd n in
    if matrixVectorMultiply B r is Some Br then
      if matrixVectorMultiply A Br is Some A_Br then
        if matrixVectorMultiply C r is Some Cr then Some (A_Br == Cr)
        else None
      else None
    else None.

(* --- specification side ------------------------------------------------ *)

(* the exact product of two n x n integer matrices *)
Definition matmul (n : nat) (A B : Matrix) : Matrix :=
  mkseq (fun i => mkseq (fun k => sumZ n (fun j => get A i j * get B j k)%Z) n) n.

(* all 0/1 vectors of length n *)
Fixpoint all_vectors (n : nat) : seq Vector :=
  if n is m.+1 then
    [seq 0%Z :: v | v <- all_vectors m] ++ [seq 1%Z :: v | v <- all_vectors m]
  else [:: [::]].

(* the number of 0/1 vectors r on which a single trial answers true *)
Definition accepting (A B C : Matrix) : nat :=
  count (fun v => freivaldsVerify A B C (nth 0%Z v) == Some true)
        (all_vectors (size A)).

(* the entries of P and C differ modulo 2^32 somewhere in the n x n block *)
Definition differs_mod32 (n : nat) (P C : Matrix) : bool :=
  has (fun i => has (fun k => wrap32 (get P i k) != wrap32 (get C i k))
                    (iota 0 n)) (iota 0 n).

(* the values of int *)
Definition is_int (z : Z) : bool := (- 2 ^ 31 <=? z)%Z && (z <? 2 ^ 31)%Z.

Definition int_matrix (M : Matrix) : bool := all (all is_int) M.

(* the 0/1 vectors v of length n with c + sum_k d k * v k = 0 (mod m) *)
Definition zeros (m c : Z) (d : nat -> Z) (n : nat) : nat :=
  count (fun v => ((c + sumZ n (fun k => d k * nth 0%Z v k)) mod m == 0)%Z)
        (all_vectors n).

(* --- the k trials of main() ---------------------------------------------- *)

(* if (!freivaldsVerify(A, B, C)) { overallResult = false; break; }
   rnds i is what the generator of the i-th call yields; inl leaves the
   loop: with the result of the break, or on undefined behaviour *)
Definition trial_body (A B C : Matrix) (rnds : nat -> nat -> Z) (i : nat)
    (overallResult : bool) : option bool + bool :=
  match freivaldsVerify A B C (rnds i) with
  | Some true => inr overallResult
  | Some false => inl (Some false)
  | None => inl None
  end.

(* bool overallResult = true; for (int i = 0; i < k; ++i) ... *)
Definition verify_repeatedly (A B C : Matrix) (k : nat)
    (rnds : nat -> nat -> Z) : option bool :=
  match for_loop k 0 (trial_body A B C rnds) true with
  | inl res => res
  | inr overallResult => Some overallResult
  end.

(* all choices of k vectors of {0,1}^n, one per trial *)
Fixpoint all_runs (k n : nat) : seq (seq Vector) :=
  if k is k'.+1 then
    [seq v :: run | v <- all_vectors n, run <- all_runs k' n]
  else [:: [::]].

(* the generator outputs of a run *)
Definition rnds_of (run : seq Vector) (i : nat) : nat -> Z :=
  nth 0%Z (nth [::] run i).

(* the runs after which overallResult is still true *)
Definition accepted_runs (A B C : Matrix) (k : nat) : nat :=
  count (fun run => verify_repeatedly A B C k (rnds_of run) == Some true)
        (all_runs k (size A)).

(* --- proofs ------------------------------------------------------------ *)

Lemma wrap32_eq a b :
  (wrap32 a = wrap32 b) <-> (a mod 2 ^ 32 = b mod 2 ^ 32)%Z.
Proof.
rewrite /wrap32; split=> H.
  have : ((a + 2 ^ 31) mod 2 ^ 32 = (b + 2 ^ 31) mod 2 ^ 32)%Z by lia.
  move=> H2.
  have := Zminus_mod_idemp_l (a + 2^31) (2^31) (2^32).
  have := Zminus_mod_idemp_l (b + 2^31) (2^31) (2^32).
  rewrite H2 => -> .
  by rewrite !Z.add_simpl_r.
have := Zplus_mod_idemp_l a (2^31) (2^32).
have := Zplus_mod_idemp_l b (2^31) (2^32).
by rewrite H => -> ->.
Qed.

Lemma wrap32_range a : (- 2 ^ 31 <= wrap32 a < 2 ^ 31)%Z.
Proof.
rewrite /wrap32.
have := Z.mod_pos_bound (a + 2 ^ 31) (2 ^ 32); lia.
Qed.

Lemma wrap32_small a : (- 2 ^ 31 <= a < 2 ^ 31)%Z -> wrap32 a = a.
Proof.
move=> H; rewrite /wrap32 Z.mod_small; lia.
Qed.

Lemma wrap32_idem a : wrap32 (wrap32 a) = wrap32 a.
Proof. exact/wrap32_small/wrap32_range. Qed.

Lemma wrap32_mod a : (wrap32 a mod 2 ^ 32 = a mod 2 ^ 32)%Z.
Proof. by apply/wrap32_eq; rewrite wrap32_idem. Qed.


Lemma int_add_wrap a b : int_add a (wrap32 b) = wrap32 (a + b).
Proof.
by apply/wrap32_eq; rewrite Zplus_mod wrap32_mod -Zplus_mod.
Qed.

Lemma wrap32_addl a b : wrap32 (wrap32 a + b) = wrap32 (a + b).
Proof.
by apply/wrap32_eq; rewrite Zplus_mod wrap32_mod -Zplus_mod.
Qed.

Lemma int_mul_wrapr a b : int_mul a (wrap32 b) = wrap32 (a * b).
Proof.
by apply/wrap32_eq; rewrite Zmult_mod wrap32_mod -Zmult_mod.
Qed.

Section MVM.
Variables (M : Matrix) (r : Vector).
Let n := size M.
Hypothesis rowsM : all (fun row => n <= size row) M.
Hypothesis size_r : n <= size r.

Let dot (i : nat) : Z := sumZ n (fun j => get M i j * nth 0%Z r j)%Z.

Lemma sumZS m f : sumZ m.+1 f = (sumZ m f + f m)%Z.
Proof. by rewrite !sumZE big_nat_recr. Qed.

Lemma mvm_inner i res0 :
  i < n -> size res0 = n -> nth 0%Z res0 i = 0%Z ->
  exists2 res, for_loop n 0 (mvm_body M r i) res0 = inr res
     & size res = n /\ forall i', nth 0%Z res i' =
         if i' == i then wrap32 (dot i) else nth 0%Z res0 i'.
Proof.
move=> ltin sz0 z0.
pose I j (res : Vector) := size res = n /\ forall i', nth 0%Z res i' =
  if i' == i then wrap32 (sumZ j (fun k => get M i k * nth 0%Z r k)%Z)
  else nth 0%Z res0 i'.
have [|j res /= ltj [szr Hr]|res -> Hres] :=
  @for_loop_ok fault _ I (mvm_body M r i) n 0 res0.
- by split=> // i'; case: eqP => // ->.
- rewrite /mvm_body.
  have -> : j < size (nth [::] M i).
    apply: leq_trans ltj _; rewrite add0n.
    by move/allP: rowsM; apply; apply: mem_nth.
  rewrite (leq_trans ltj) //=.
  eexists; first by reflexivity.
  split=> [|i'].
    by rewrite size_set_nth szr; apply/maxn_idPr.
  rewrite nth_set_nth /= !Hr eqxx; case: eqP => // _.
  by rewrite /int_mul int_add_wrap wrap32_addl sumZS.
by exists res.
Qed.

Lemma matrixVectorMultiplyE :
  matrixVectorMultiply M r = Some (mkseq (fun i => wrap32 (dot i)) n).
Proof.
rewrite /matrixVectorMultiply -/n.
pose I i (res : Vector) := size res = n /\ forall i', nth 0%Z res i' =
  if i' < i then wrap32 (dot i') else 0%Z.
have [|i res /= lti [szr Hr]|res -> [szr Hres]] :=
  @for_loop_ok fault _ I (fun i => for_loop n 0 (mvm_body M r i)) n 0 (nseq n 0%Z).
- by split=> [|i']; rewrite ?size_nseq // nth_nseq if_same.
- have lti' : i < n by rewrite add0n in lti.
  have z : nth 0%Z res i = 0%Z by rewrite Hr ltnn.
  have [res' -> [sz' H']] := mvm_inner lti' szr z.
  exists res' => //; split=> // i'; rewrite H' ltnS leq_eqVlt.
  by case: eqP => [->|_] //=; rewrite Hr.
congr Some; apply: (@eq_from_nth _ 0%Z); rewrite ?size_mkseq // => i.
by rewrite szr => lti; rewrite nth_mkseq // Hres add0n lti.
Qed.

End MVM.

Lemma eq_in_mkseq (T : Type) (f g : nat -> T) n :
  (forall i, i < n -> f i = g i) -> mkseq f n = mkseq g n.
Proof.
by move=> H; apply/eq_in_map => i; rewrite mem_iota add0n => /H.
Qed.

Lemma eq_sumZ n f g : (forall j, j < n -> f j = g j) -> sumZ n f = sumZ n g.
Proof. by move=> H; rewrite !sumZE; apply: eq_big_nat => j /andP[_ /H]. Qed.

Lemma sumZ_wrap n a b :
  wrap32 (sumZ n (fun j => a j * wrap32 (b j))%Z)
  = wrap32 (sumZ n (fun j => a j * b j)%Z).
Proof.
elim: n => [//|n /wrap32_eq IH]; rewrite !sumZS; apply/wrap32_eq.
rewrite Zplus_mod IH Zmult_mod wrap32_mod -Zmult_mod.
by rewrite -Zplus_mod.
Qed.

Lemma sumZ_exchange n (a : nat -> Z) (b : nat -> nat -> Z) (r : nat -> Z) :
  sumZ n (fun j => a j * sumZ n (fun k => b j k * r k))%Z
  = sumZ n (fun k => sumZ n (fun j => a j * b j k) * r k)%Z.
Proof.
rewrite !sumZE.
under eq_bigr => j _ do rewrite sumZE -ZmulE big_distrr /=.
rewrite exchange_big /=; apply: eq_bigr => k _.
rewrite sumZE -ZmulE big_distrl /=; apply: eq_bigr => j _.
by rewrite !ZmulE Z.mul_assoc.
Qed.

Lemma squareP n (M : Matrix) :
  square n M -> size M = n /\ forall i, i < n -> size (nth [::] M i) = n.
Proof.
case/andP=> /eqP sz /allP H; split=> // i lti.
by apply/eqP/H/mem_nth; rewrite sz.
Qed.

Lemma mvm_square n (M : Matrix) (r : Vector) :
  square n M -> n <= size r ->
  matrixVectorMultiply M r =
    Some (mkseq (fun i => wrap32 (sumZ n (fun j => get M i j * nth 0%Z r j)%Z)) n).
Proof.
case/andP=> /eqP sz /allP H ler.
rewrite matrixVectorMultiplyE sz //.
by apply/allP => row /H /eqP ->.
Qed.

Lemma square_valid n A B C :
  0 < n -> square n A -> square n B -> square n C ->
  invalid_dimensions A B C = false.
Proof.
move=> n0 /squareP [sA rA] /squareP [sB rB] /squareP [sC rC].
rewrite /invalid_dimensions sA sB sC rA // rB // rC // !eqxx /=.
by rewrite eqn0Ngt n0.
Qed.

Lemma get_matmul n A B i k :
  i < n -> k < n ->
  get (matmul n A B) i k = sumZ n (fun j => get A i j * get B j k)%Z.
Proof. by move=> lti ltk; rewrite /get /matmul !nth_mkseq. Qed.

(* the two vectors a single trial compares, on square inputs *)
Lemma freivaldsVerify_square n A B C rnd :
  0 < n -> square n A -> square n B -> square n C ->
  freivaldsVerify A B C rnd =
    Some (mkseq (fun i => wrap32 (sumZ n (fun k => get (matmul n A B) i k * rnd k)%Z)) n
          == mkseq (fun i => wrap32 (sumZ n (fun k => get C i k * rnd k)%Z)) n).
Proof.
move=> n0 sqA sqB sqC; rewrite /freivaldsVerify (square_valid n0 sqA sqB sqC).
have [sA rA] := squareP sqA; have [sB rB] := squareP sqB.
have [sC rC] := squareP sqC.
rewrite sA (mvm_square sqB) ?size_mkseq // (mvm_square sqA) ?size_mkseq //.
rewrite (mvm_square sqC) ?size_mkseq //.
congr (Some _); congr (_ == _).
  apply: eq_in_mkseq => i lti.
  transitivity (wrap32 (sumZ n (fun j => get A i j *
     wrap32 (sumZ n (fun k => get B j k * rnd k)))%Z)).
    congr wrap32; apply: eq_sumZ => j ltj; rewrite nth_mkseq //.
    by congr (_ * wrap32 _)%Z; apply: eq_sumZ => k ltk; rewrite nth_mkseq.
  rewrite sumZ_wrap sumZ_exchange; congr wrap32; apply: eq_sumZ => k ltk.
  by rewrite get_matmul.
apply: eq_in_mkseq => i lti; congr wrap32.
by apply: eq_sumZ => k ltk; rewrite nth_mkseq.
Qed.

(** C1: for every n >= 1 and all n x n integer matrices A, B, C with
    C = A*B exactly, a single trial of freivaldsVerify answers true whatever
    values the generator yields for r (in particular for every 0/1 vector):
    there is no false negative. *)
Theorem freivalds_no_false_negative n A B C rnd :
  0 < n -> square n A -> square n B -> square n C ->
  C = matmul n A B ->
  freivaldsVerify A B C rnd = Some true.
Proof.
move=> n0 sqA sqB sqC eqC.
by rewrite (freivaldsVerify_square rnd n0 sqA sqB sqC) -eqC eqxx.
Qed.

Section Counting.

Variable m : Z.

Lemma size_all_vectors n : size (all_vectors n) = 2 ^ n.
Proof.
by elim: n => [//|n IH]; rewrite expnS mul2n -addnn -IH /= size_cat !size_map.
Qed.

Lemma sumZ_recl n f : sumZ n.+1 f = (f 0%N + sumZ n (fun k => f k.+1))%Z.
Proof. by rewrite !sumZE big_nat_recl // -ZaddE. Qed.

Lemma zerosS c d n :
  zeros m c d n.+1 =
  zeros m c (fun k => d k.+1) n + zeros m (c + d 0%N)%Z (fun k => d k.+1) n.
Proof.
rewrite /zeros /= count_cat !count_map; congr (_ + _);
  apply: eq_count => v /=; rewrite sumZ_recl /=; congr (_ mod m == _)%Z; lia.
Qed.

Lemma zeros_disjoint c e d n :
  (e mod m <> 0)%Z -> zeros m c d n + zeros m (c + e)%Z d n <= 2 ^ n.
Proof.
move=> He; rewrite /zeros -count_predUI -[X in _ <= X]addn0 -size_all_vectors.
apply: leq_add; first exact: count_size.
rewrite leqn0; apply/eqP; rewrite -(@eq_count _ pred0) ?count_pred0 // => v /=.
apply/esym/negP => /andP[/eqP H1 /eqP H2]; apply: He.
move: H1 H2; set s := sumZ _ _ => H1 H2.
have -> : e = ((c + e + s) - (c + s))%Z by lia.
by rewrite Zminus_mod H1 H2.
Qed.

Lemma zeros_half c d n :
  (exists2 k, k < n & (d k mod m <> 0)%Z) -> 2 * zeros m c d n <= 2 ^ n.
Proof.
elim: n c d => [|n IH] c d [k ltk dk]; first by [].
rewrite zerosS.
have [d0|d0] := Z.eq_dec (d 0%N mod m) 0%Z; last first.
  rewrite expnS leq_pmul2l //; exact: zeros_disjoint.
have ex : exists2 k', k' < n & (d k'.+1 mod m <> 0)%Z.
  by case: k ltk dk => [|k'] // ltk dk; exists k'.
by rewrite expnS mulnDr [2 * 2 ^ n]mul2n -addnn; apply: leq_add; apply: IH.
Qed.

End Counting.

Lemma sumZ_sub n (a b v : nat -> Z) :
  sumZ n (fun k => (a k - b k) * v k)%Z
  = (sumZ n (fun k => a k * v k) - sumZ n (fun k => b k * v k))%Z.
Proof. by elim: n => [//|n IH]; rewrite !sumZS IH; lia. Qed.

Lemma accepting_half n A B C :
  0 < n -> square n A -> square n B -> square n C ->
  differs_mod32 n (matmul n A B) C ->
  2 * accepting A B C <= 2 ^ n.
Proof.
move=> n0 sqA sqB sqC /hasP[i]; rewrite mem_iota add0n /= => lti.
case/hasP=> k; rewrite mem_iota add0n /= => ltk /eqP Hd.
have [sA _] := squareP sqA.
set P := matmul n A B in Hd *.
pose d k' := (get P i k' - get C i k')%Z.
apply: leq_trans (@zeros_half (2 ^ 32)%Z 0%Z d n _); last first.
  exists k => //; rewrite /d => /Z.cong_iff_0 /wrap32_eq; exact: Hd.
rewrite leq_pmul2l // /accepting sA; apply: sub_count => v /=.
rewrite (freivaldsVerify_square _ n0 sqA sqB sqC) => /eqP[] /eqP.
move/(congr1 (fun s => nth 0%Z s i)); rewrite !nth_mkseq // -/P.
move/wrap32_eq/Z.cong_iff_0 => H.
by rewrite /d sumZ_sub; apply/eqP; exact: H.
Qed.

(** C4 (amended): for every n >= 1 and all n x n matrices A, B, C such that
    the exact product A*B and C differ in some entry modulo 2^32, at most
    2^(n-1) of the 2^n vectors r in {0,1}^n make a single trial of
    freivaldsVerify answer true. *)
Theorem freivalds_false_positive_bound n A B C :
  0 < n -> square n A -> square n B -> square n C ->
  differs_mod32 n (matmul n A B) C ->
  accepting A B C <= 2 ^ n.-1.
Proof.
move=> n0 sqA sqB sqC Hd.
have := accepting_half n0 sqA sqB sqC Hd.
by rewrite -[in 2 ^ n](prednK n0) expnS leq_pmul2l.
Qed.

Lemma int_matrix_get M i j :
  int_matrix M -> (- 2 ^ 31 <= get M i j < 2 ^ 31)%Z.
Proof.
move=> /allP H; rewrite /get.
have [lti|gei] := ltnP i (size M); last by rewrite (nth_default _ gei) nth_nil.
have /allP Hr := H _ (mem_nth [::] lti).
have [ltj|gej] := ltnP j (size (nth [::] M i)); last by rewrite (nth_default _ gej).
by have /andP[/Z.leb_spec0 ? /Z.ltb_spec0 ?] := Hr _ (mem_nth 0%Z ltj).
Qed.

(* where the exact product fits in int, A*B <> C is the hypothesis of the
   bound *)
Lemma differs_mod32_of_neq n A B C :
  square n C -> int_matrix (matmul n A B) -> int_matrix C ->
  matmul n A B <> C -> differs_mod32 n (matmul n A B) C.
Proof.
move=> sqC iP iC neq; apply/negPn/negP => /hasPn H; apply: neq.
have [sC rC] := squareP sqC.
apply: (@eq_from_nth _ [::]); rewrite size_mkseq ?sC // => i lti.
apply: (@eq_from_nth _ 0%Z); rewrite nth_mkseq // size_mkseq ?rC // => k ltk.
have := H i; rewrite mem_iota add0n lti => /(_ isT) /hasPn /(_ k).
rewrite mem_iota add0n ltk => /(_ isT) /negPn /eqP.
rewrite !wrap32_small; try exact: int_matrix_get.
by rewrite {1}/get /matmul nth_mkseq.
Qed.

(* C4 as stated fails: 65536 * 65536 = 2^32 differs from 0, yet the 32-bit
   product wraps to 0 and both vectors of {0,1}^1 are accepted. *)
Lemma freivalds_overflow_accepts :
  let A := [:: [:: 65536%Z]] in
  let C := [:: [:: 0%Z]] in
  [/\ square 1 A && int_matrix A, square 1 C && int_matrix C,
      matmul 1 A A <> C, accepting A A C = 2
    & ~ (accepting A A C <= 2 ^ (1 - 1))].
Proof. by split; vm_compute. Qed.

(* the matrices of main() *)
Definition A_main : Matrix := [:: [:: 1; 2; 3]; [:: 4; 5; 6]; [:: 7; 8; 9]]%Z.
Definition B_main : Matrix := [:: [:: 9; 8; 7]; [:: 6; 5; 4]; [:: 3; 2; 1]]%Z.
Definition C_correct : Matrix :=
  [:: [:: 30; 24; 18]; [:: 84; 69; 54]; [:: 138; 114; 90]]%Z.
Definition C_incorrect : Matrix :=
  [:: [:: 30; 24; 18]; [:: 84; 69; 54]; [:: 138; 114; 91]]%Z.

Lemma freivalds_no_false_negative_witness :
  C_correct = matmul 3 A_main B_main /\
  freivaldsVerify A_main B_main C_correct (fun=> 1%Z) = Some true.
Proof.
split; first by vm_compute.
by apply: (@freivalds_no_false_negative 3) => //; vm_compute.
Defined.

Lemma freivalds_false_positive_bound_witness :
  differs_mod32 3 (matmul 3 A_main B_main) C_incorrect /\
  accepting A_main B_main C_incorrect <= 2 ^ 2.
Proof.
split; first by vm_compute.
by apply: (@freivalds_false_positive_bound 3) => //; vm_compute.
Defined.

Lemma mvm_row_short (M : Matrix) (r res : Vector) i :
  size (nth [::] M i) < size M ->
  for_loop (size M) 0 (mvm_body M r i) res = inl OutOfBounds.
Proof.
move=> short.
pose I j (t : Vector) := j <= size (nth [::] M i).
have := @for_loop_inv fault _ I (fun=> True) (mvm_body M r i) (size M) 0 res.
case: (for_loop _ _ _ _) => [[]|t] // H.
suff: I (0 + size M) t by rewrite /I add0n leqNgt short.
apply: H => // j t' _; rewrite /I /mvm_body => lej.
by case: ifP => // /andP[].
Qed.

Lemma mvm_short (M : Matrix) (r : Vector) :
  (exists2 i, i < size M & size (nth [::] M i) < size M) ->
  matrixVectorMultiply M r = None.
Proof.
case=> i lti short; rewrite /matrixVectorMultiply.
pose I i' (t : Vector) := i' <= i.
set body := fun i' => _.
have := @for_loop_inv fault _ I (fun=> True) body (size M) 0 (nseq (size M) 0%Z).
case: (for_loop _ _ _ _) => [[]|t] // H.
suff: I (0 + size M) t by rewrite /I add0n leqNgt lti.
apply: H => // i' t' _; rewrite /I /body leq_eqVlt => /orP[/eqP ->|] //.
  by rewrite mvm_row_short.
by case: (for_loop _ _ _ _).
Qed.

(** C5 (amended): when the row counts of A, B, C or the lengths of their
    first rows are not all equal to one n >= 1, freivaldsVerify returns the
    plain boolean false, the value it also returns for a detected
    inequality; no distinguishable condition is raised. *)
Theorem invalid_dimensions_returns_false A B C rnd :
  let n := size A in
  n = 0 \/ size (nth [::] A 0) <> n \/ size B <> n \/
  size (nth [::] B 0) <> n \/ size C <> n \/ size (nth [::] C 0) <> n ->
  freivaldsVerify A B C rnd = Some false.
Proof.
move=> n H; rewrite /freivaldsVerify.
suff -> : invalid_dimensions A B C by [].
rewrite /invalid_dimensions -/n.
by case: H => [->|[/eqP->|[/eqP->|[/eqP->|[/eqP->|/eqP->]]]]] //; rewrite !orbT.
Qed.

Lemma invalid_dimensions_returns_false_witness :
  size (nth [::] [:: [:: 1; 2]%Z] 0) <> 1 /\
  freivaldsVerify [:: [:: 1; 2]%Z] [:: [:: 1%Z]] [:: [:: 1%Z]] (fun=> 1%Z)
    = Some false.
Proof.
split; first by [].
by apply: invalid_dimensions_returns_false; right; left.
Defined.

(* C5 as stated fails: a 1 x 2 matrix A against 1 x 1 matrices B, C gets the
   same answer as a well-dimensioned wrong product. *)
Lemma dimension_mismatch_is_a_verdict :
  freivaldsVerify [:: [:: 1; 2]%Z] [:: [:: 1%Z]] [:: [:: 1%Z]] (fun=> 1%Z)
    = Some false /\
  freivaldsVerify [:: [:: 1%Z]] [:: [:: 1%Z]] [:: [:: 2%Z]] (fun=> 1%Z)
    = Some false.
Proof. by split; vm_compute. Qed.

(** C9: the validation of freivaldsVerify looks only at the row counts of
    A, B, C and at the lengths of their first rows: for every n >= 1, inputs
    with n rows and first rows of length n pass it whatever the lengths of
    the later rows, and when a later row of A, B or C is shorter than n the
    matrix-vector products read beyond the end of that row. *)
Theorem ragged_rows_pass_validation n A B C rnd :
  0 < n -> size A = n -> size B = n -> size C = n ->
  size (nth [::] A 0) = n -> size (nth [::] B 0) = n ->
  size (nth [::] C 0) = n ->
  invalid_dimensions A B C = false /\
  ([\/ exists2 i, i < n & size (nth [::] A i) < n,
       exists2 i, i < n & size (nth [::] B i) < n
     | exists2 i, i < n & size (nth [::] C i) < n] ->
   freivaldsVerify A B C rnd = None).
Proof.
move=> n0 sA sB sC rA rB rC.
have valid : invalid_dimensions A B C = false.
  by rewrite /invalid_dimensions sA sB sC rA rB rC eqxx /= eqn0Ngt n0.
split=> // short; rewrite /freivaldsVerify valid.
case: short => [] [i lti si].
- case: (matrixVectorMultiply B _) => // Br.
  by rewrite mvm_short //; exists i; rewrite sA.
- by rewrite mvm_short //; exists i; rewrite sB.
- case: (matrixVectorMultiply B _) => // Br.
  case: (matrixVectorMultiply A _) => // A_Br.
  by rewrite mvm_short //; exists i; rewrite sC.
Qed.

Lemma ragged_rows_pass_validation_witness :
  let A := [:: [:: 1; 2]; [:: 3]]%Z in
  invalid_dimensions A A A = false /\
  freivaldsVerify A A A (fun=> 1%Z) = None.
Proof.
move=> A.
have [//|//|//|//|//|//|//|-> H] :=
  @ragged_rows_pass_validation 2 A A A (fun=> 1%Z).
by split=> //; apply: H; constructor 1; exists 1.
Defined.

(* ---------------------------------------------------------------------- *)
(* Further properties of matrixVectorMultiply, freivaldsVerify and main   *)
(* ---------------------------------------------------------------------- *)

(* --- matrixVectorMultiply on its own ---------------------------------------- *)

Lemma mvm_ok (M : Matrix) (r : Vector) :
  all (fun row => size M <= size row) M -> size M <= size r ->
  matrixVectorMultiply M r =
    Some (mkseq (fun i =>
            wrap32 (sumZ (size M) (fun j => get M i j * nth 0%Z r j)%Z))
          (size M)).
Proof. by move=> rows ler; rewrite matrixVectorMultiplyE. Qed.

Lemma mvm_vector_short (M : Matrix) (r : Vector) :
  size r < size M -> matrixVectorMultiply M r = None.
Proof.
move=> short; rewrite /matrixVectorMultiply.
have inner res : for_loop (size M) 0 (mvm_body M r 0) res = inl OutOfBounds.
  pose I j (t : Vector) := j <= size r.
  have := @for_loop_inv fault _ I (fun=> True) (mvm_body M r 0) (size M) 0 res.
  case: (for_loop _ _ _ _) => [[]|t] // H.
  suff: I (0 + size M) t by rewrite /I add0n leqNgt short.
  apply: H => // j t' _; rewrite /I /mvm_body => lej.
  by case: ifP => // /andP[].
have [m Em] : exists m, size M = m.+1.
  by case: (size M) short => // m _; exists m.
by rewrite {1}Em /= inner.
Qed.

(** X1: matrixVectorMultiply returns, for a matrix M with n rows of length
    at least n and a vector r of length at least n, the n products of the
    first n entries of each row with r, each reduced to 32 bits; entries of
    the rows and of r beyond n are not read. *)
Theorem matrixVectorMultiply_spec (M : Matrix) (r : Vector) :
  all (fun row => size M <= size row) M -> size M <= size r ->
  matrixVectorMultiply M r =
    Some (mkseq (fun i =>
            wrap32 (sumZ (size M) (fun j => get M i j * nth 0%Z r j)%Z))
          (size M)).
Proof. exact: mvm_ok. Qed.

Lemma matrixVectorMultiply_spec_witness :
  matrixVectorMultiply [:: [:: 1; 2; 9]; [:: 3; 4]]%Z [:: 5; 6; 7]%Z
    = Some [:: 17; 39]%Z.
Proof. by rewrite matrixVectorMultiply_spec. Defined.

Lemma mvm_defined (M : Matrix) (r : Vector) :
  isSome (matrixVectorMultiply M r) =
  all (fun row => size M <= size row) M
  && ((size M == 0) || (size M <= size r)).
Proof.
case: (boolP (all _ M)) => [rows|/allPn[row rowM]] /=; last first.
  rewrite -ltnNge => short; rewrite mvm_short //.
  exists (index row M); first by rewrite index_mem.
  by rewrite nth_index.
case: (posnP (size M)) => [/size0nil ->|n0] //=.
case: (leqP (size M) (size r)) => [ler|short]; first by rewrite mvm_ok.
by rewrite mvm_vector_short.
Qed.

(** X2: matrixVectorMultiply stays inside its vectors exactly when every row
    of M has at least M.size() entries and, unless M is empty, r has at
    least M.size() entries; otherwise it reads out of range. *)
Theorem matrixVectorMultiply_in_bounds (M : Matrix) (r : Vector) :
  isSome (matrixVectorMultiply M r) =
  all (fun row => size M <= size row) M
  && ((size M == 0) || (size M <= size r)).
Proof. exact: mvm_defined. Qed.

Lemma mvm_size (M : Matrix) (r v : Vector) :
  matrixVectorMultiply M r = Some v -> size v = size M.
Proof.
move=> E; have := mvm_defined M r; rewrite E /=.
case/esym/andP=> rows /orP[/eqP/size0nil M0|ler].
  by move: E; rewrite M0 => -[<-].
by move: E; rewrite mvm_ok // => -[<-]; rewrite size_mkseq.
Qed.

(** X3: a trial of freivaldsVerify stays inside its vectors exactly when the
    dimension check fails or every row of B, of A and of C has at least n
    entries: the check reads the length of the first rows only, and a
    shorter later row is read out of range. *)
Theorem freivaldsVerify_in_bounds A B C rnd :
  isSome (freivaldsVerify A B C rnd) =
  invalid_dimensions A B C
  || [&& all (fun row => size A <= size row) B,
         all (fun row => size A <= size row) A
       & all (fun row => size A <= size row) C].
Proof.
rewrite /freivaldsVerify; case Hinv: (invalid_dimensions A B C) => //=.
move/negbT: Hinv; rewrite /invalid_dimensions !negb_or !negbK.
case/andP=> n0 /and5P[_ /eqP sB _ /eqP sC _].
set r := mkseq rnd (size A).
have HB : isSome (matrixVectorMultiply B r)
          = all (fun row => size A <= size row) B.
  by rewrite mvm_defined sB size_mkseq leqnn orbT andbT.
case EB: (matrixVectorMultiply B r) HB => [Br|] /= <- //=.
have sBr : size Br = size A by rewrite (mvm_size EB).
have HA : isSome (matrixVectorMultiply A Br)
          = all (fun row => size A <= size row) A.
  by rewrite mvm_defined sBr leqnn orbT andbT.
case: (matrixVectorMultiply A Br) HA => [A_Br|] /= <- //=.
have HC : isSome (matrixVectorMultiply C r)
          = all (fun row => size A <= size row) C.
  by rewrite mvm_defined sC size_mkseq leqnn orbT andbT.
by case: (matrixVectorMultiply C r) HC => [Cr|] /= <-.
Qed.

Lemma sumZ_zero n f : (forall j, j < n -> f j = 0%Z) -> sumZ n f = 0%Z.
Proof.
move=> H; rewrite sumZE big_nat big1 // => j /andP[_ ltj]; exact: H.
Qed.

Lemma zero_run_accepted n A B C rnd :
  0 < n -> square n A -> square n B -> square n C ->
  (forall k, k < n -> rnd k = 0%Z) ->
  freivaldsVerify A B C rnd = Some true.
Proof.
move=> n0 sqA sqB sqC Hz; rewrite (freivaldsVerify_square _ n0 sqA sqB sqC).
congr (Some _); apply/eqP; apply: eq_in_mkseq => i lti.
by rewrite !sumZ_zero // => k ltk; rewrite Hz // Z.mul_0_r.
Qed.

Lemma zeros_in_all_vectors n : nseq n 0%Z \in all_vectors n.
Proof.
by elim: n => [//|n IH]; rewrite /= mem_cat map_f.
Qed.

(** X4: a trial in which the generator yields only zeros answers true
    whatever the n x n matrices are, so at least one of the 2^n vectors is
    always accepted: a single trial never rejects a wrong product with
    certainty. *)
Theorem zero_vector_always_accepted n A B C :
  0 < n -> square n A -> square n B -> square n C ->
  freivaldsVerify A B C (fun=> 0%Z) = Some true /\ 0 < accepting A B C.
Proof.
move=> n0 sqA sqB sqC; split; first exact: (@zero_run_accepted n).
have [sA _] := squareP sqA.
rewrite /accepting -has_count sA; apply/hasP; exists (nseq n 0%Z).
  exact: zeros_in_all_vectors.
apply/eqP; apply: (@zero_run_accepted n) => // k ltk.
by rewrite nth_nseq ltk.
Qed.

Lemma zero_vector_always_accepted_witness :
  freivaldsVerify A_main B_main C_incorrect (fun=> 0%Z) = Some true /\
  0 < accepting A_main B_main C_incorrect.
Proof. by apply: (@zero_vector_always_accepted 3). Defined.

Lemma eq_mkseq_all (f g : nat -> Z) n :
  (mkseq f n == mkseq g n) = all (fun i => f i == g i) (iota 0 n).
Proof.
apply/eqP/allP => [H i|H].
  rewrite mem_iota add0n /= => lti.
  by have := congr1 (fun s => nth 0%Z s i) H; rewrite !nth_mkseq // => ->.
by apply: eq_in_mkseq => i lti; apply/eqP/H; rewrite mem_iota.
Qed.

Lemma trial_residual n A B C rnd :
  0 < n -> square n A -> square n B -> square n C ->
  freivaldsVerify A B C rnd =
  Some (all (fun i =>
          (sumZ n (fun k => (get (matmul n A B) i k - get C i k) * rnd k)
             mod 2 ^ 32 == 0)%Z) (iota 0 n)).
Proof.
move=> n0 sqA sqB sqC; rewrite (freivaldsVerify_square _ n0 sqA sqB sqC).
congr (Some _); rewrite eq_mkseq_all; apply: eq_in_all => i _.
rewrite sumZ_sub.
by apply/eqP/eqP => [/wrap32_eq/Z.cong_iff_0|/Z.cong_iff_0/wrap32_eq].
Qed.

(** X5: on n x n matrices a trial answers true exactly when every coordinate
    of (A*B - C) r, computed exactly, is a multiple of 2^32, whatever values
    the generator yields for r. *)
Theorem freivaldsVerify_residual n A B C rnd :
  0 < n -> square n A -> square n B -> square n C ->
  freivaldsVerify A B C rnd =
  Some (all (fun i =>
          (sumZ n (fun k => (get (matmul n A B) i k - get C i k) * rnd k)
             mod 2 ^ 32 == 0)%Z) (iota 0 n)).
Proof. exact: trial_residual. Qed.

Lemma freivaldsVerify_residual_witness :
  freivaldsVerify A_main B_main C_incorrect (fun k => Z.of_nat k mod 2)%Z =
  Some (all (fun i =>
          (sumZ 3 (fun k => (get (matmul 3 A_main B_main) i k
                             - get C_incorrect i k) * (Z.of_nat k mod 2))
             mod 2 ^ 32 == 0)%Z) (iota 0 3)).
Proof. by apply: freivaldsVerify_residual. Defined.

(* --- the k trials of main() ---------------------------------------------- *)

Lemma for_loop_shift {E S : Type} (body : nat -> S -> E + S) cnt i s :
  for_loop cnt i.+1 body s = for_loop cnt i (fun j => body j.+1) s.
Proof.
by elim: cnt i s => [|c IH] i s //=; case: (body i.+1 s) => // s'; rewrite IH.
Qed.

Lemma verify_repeatedlyS A B C k rnds :
  verify_repeatedly A B C k.+1 rnds =
  match freivaldsVerify A B C (rnds 0) with
  | Some true => verify_repeatedly A B C k (fun i => rnds i.+1)
  | other => other
  end.
Proof.
rewrite /verify_repeatedly /= {1}/trial_body.
case: (freivaldsVerify A B C (rnds 0)) => [[]|] //.
by rewrite for_loop_shift.
Qed.

Lemma verify_repeatedly_all A B C k rnds :
  (verify_repeatedly A B C k rnds == Some true) =
  all (fun i => freivaldsVerify A B C (rnds i) == Some true) (iota 0 k).
Proof.
elim: k rnds => [//|k IH] rnds; rewrite verify_repeatedlyS.
rewrite -[iota 0 k.+1]/(0 :: iota 1 k) /= (iotaDl 1 0 k) all_map.
by case: (freivaldsVerify A B C (rnds 0)) => [[]|] //=; rewrite IH.
Qed.

Lemma size_all_runs k n : size (all_runs k n) = 2 ^ (n * k).
Proof.
elim: k => [|k IH]; first by rewrite muln0.
by rewrite /= size_allpairs IH size_all_vectors mulnS expnD.
Qed.

Lemma count_allpairs_cons (T : Type) (a : pred T) (b : pred (seq T))
    (s : seq T) (t : seq (seq T)) :
  count (fun l => if l is x :: l' then a x && b l' else false)
        [seq x :: l | x <- s, l <- t]
  = count a s * count b t.
Proof.
elim: s => [//|x s IH]; rewrite allpairs_cons count_cat IH /= mulnDl.
congr (_ + _); rewrite count_map.
rewrite (@eq_count _ _ (fun l => a x && b l)) //.
case: (a x); last by rewrite mul0n count_pred0.
by rewrite mul1n.
Qed.

Lemma accepted_runsE A B C k :
  accepted_runs A B C k = accepting A B C ^ k.
Proof.
rewrite /accepted_runs /accepting; elim: k => [//|k IH].
rewrite expnS -IH /= -count_allpairs_cons.
apply: eq_in_count => run /allpairsP[[v run'] /= [_ _ ->]].
rewrite verify_repeatedlyS /rnds_of /=.
by case: (freivaldsVerify A B C (nth 0%Z v)) => [[]|].
Qed.

(** X6: the k trials of main() never reject a correct product: for n x n
    matrices with C = A*B exactly, overallResult is true after the loop
    whatever the generators of the k calls yield. *)
Theorem repeated_no_false_negative n A B C k rnds :
  0 < n -> square n A -> square n B -> square n C ->
  C = matmul n A B ->
  verify_repeatedly A B C k rnds = Some true.
Proof.
move=> n0 sqA sqB sqC eqC; apply/eqP; rewrite verify_repeatedly_all.
apply/allP => i _.
by rewrite (freivaldsVerify_square _ n0 sqA sqB sqC) -eqC eqxx.
Qed.

Lemma repeated_no_false_negative_witness :
  verify_repeatedly A_main B_main C_correct 10 (fun i j => Z.of_nat (i + j) mod 2)%Z
    = Some true.
Proof. by apply: (@repeated_no_false_negative 3) => //; vm_compute. Defined.

(** X7: the loop of main() stops at the first trial that does not answer
    true and gives that trial's outcome, false or a read out of range,
    whatever the later generators would yield; it answers true when every
    one of the k trials answers true. *)
Theorem repeated_first_failure A B C k rnds :
  verify_repeatedly A B C k rnds =
  head (Some true)
    [seq res <- [seq freivaldsVerify A B C (rnds i) | i <- iota 0 k]
     | res != Some true].
Proof.
elim: k rnds => [//|k IH] rnds; rewrite verify_repeatedlyS.
rewrite -[iota 0 k.+1]/(0 :: iota 1 k) /= (iotaDl 1 0 k) -map_comp.
by case: (freivaldsVerify A B C (rnds 0)) => [[]|] //=; rewrite IH.
Qed.

(** X8: the trials are independent: among the (2^n)^k choices of k vectors
    of {0,1}^n, the number after which overallResult is still true is the
    k-th power of the number of vectors one trial accepts. *)
Theorem accepted_runs_is_power A B C k :
  size (all_runs k (size A)) = (2 ^ size A) ^ k /\
  accepted_runs A B C k = accepting A B C ^ k.
Proof. by rewrite size_all_runs expnM accepted_runsE. Qed.

(** X9: for n x n matrices whose exact product A*B differs from C in some
    entry modulo 2^32, at most a fraction 2^-k of the choices of k vectors
    leaves overallResult true: 2^k times the number of accepted runs is at
    most the number 2^(n*k) of runs. *)
Theorem repeated_false_positive_bound n A B C k :
  0 < n -> square n A -> square n B -> square n C ->
  differs_mod32 n (matmul n A B) C ->
  2 ^ k * accepted_runs A B C k <= 2 ^ (n * k).
Proof.
move=> n0 sqA sqB sqC Hd; case: k => [|k]; first by rewrite muln0.
rewrite accepted_runsE -expnMn expnM leq_exp2r //.
exact: accepting_half.
Qed.

Lemma repeated_false_positive_bound_witness :
  2 ^ 2 * accepted_runs A_main B_main C_incorrect 2 <= 2 ^ (3 * 2).
Proof.
by apply: (@repeated_false_positive_bound 3) => //; vm_compute.
Defined.

(* --- the bound 1/2 is attained ----------------------------------------------- *)

(* the n x n matrix whose only nonzero entry is a 1 in the upper left corner *)
Definition corner (n : nat) : Matrix :=
  mkseq (fun i => mkseq (fun k => if (i == 0) && (k == 0) then 1%Z else 0%Z) n) n.

Lemma square_zeros n : square n (nseq n (nseq n 0%Z)).
Proof.
rewrite /square size_nseq eqxx /=; apply/allP => row /nseqP[-> _].
by rewrite size_nseq.
Qed.

Lemma square_corner n : square n (corner n).
Proof.
rewrite /square size_mkseq eqxx /=; apply/allP => row /mapP[i _ ->].
by rewrite size_mkseq.
Qed.

Lemma get_zero_matrix n i j : get (nseq n (nseq n 0%Z)) i j = 0%Z.
Proof.
by rewrite /get nth_nseq; case: ifP => _; rewrite ?nth_nil // nth_nseq if_same.
Qed.

Lemma get_corner n i k :
  i < n -> k < n ->
  get (corner n) i k = if (i == 0) && (k == 0) then 1%Z else 0%Z.
Proof. by move=> lti ltk; rewrite /get /corner !nth_mkseq. Qed.

Lemma sumZ_first n f :
  0 < n -> (forall k, 0 < k < n -> f k = 0%Z) -> sumZ n f = f 0.
Proof.
elim: n => [//|[_ _ _|n IH _ H]]; first by rewrite sumZS.
rewrite sumZS; have -> : f n.+1 = 0%Z by apply: H; rewrite ltnSn.
rewrite Z.add_0_r; apply: IH => // k /andP[k0 ltk].
by apply: H; rewrite k0 ltnW.
Qed.

Lemma corner_trial n rnd :
  0 < n ->
  freivaldsVerify (nseq n (nseq n 0%Z)) (nseq n (nseq n 0%Z)) (corner n) rnd
  = Some ((rnd 0%N mod 2 ^ 32)%Z == 0%Z).
Proof.
move=> n0.
rewrite (trial_residual _ n0 (square_zeros n) (square_zeros n)
           (square_corner n)); congr (Some _).
have E i : i < n ->
    sumZ n (fun k => (get (matmul n (nseq n (nseq n 0%Z)) (nseq n (nseq n 0%Z))) i k
                      - get (corner n) i k) * rnd k)%Z
    = if i == 0 then (- rnd 0%N)%Z else 0%Z.
  move=> lti.
  have P0 k : k < n ->
      get (matmul n (nseq n (nseq n 0%Z)) (nseq n (nseq n 0%Z))) i k = 0%Z.
    move=> ltk; rewrite get_matmul // sumZ_zero // => j _.
    by rewrite get_zero_matrix.
  rewrite sumZ_first // => [k /andP[k0 ltk]|].
    by rewrite P0 // get_corner // (gtn_eqF k0) andbF.
  by rewrite P0 // get_corner // andbT; case: eqP => _; lia.
have -> : iota 0 n = 0 :: iota 1 n.-1 by case: (n) n0.
rewrite [all _ _]/= E // eqxx (@eq_in_all _ _ predT) ?all_predT ?andbT.
  move=> i; rewrite mem_iota add1n prednK // => /andP[i0 lti].
  by rewrite E // (gtn_eqF i0).
by apply/eqP/eqP => H; [rewrite -(Z.opp_involutive (rnd 0%N)) |];
   apply: Z_mod_zero_opp_full.
Qed.

(** X10: the bound of one half is attained for every n >= 1: with A and B the
    zero matrices and C the matrix whose only nonzero entry is a 1 in the
    upper left corner, A*B differs from C and exactly 2^(n-1) of the 2^n
    vectors of {0,1}^n are accepted. *)
Theorem false_positive_bound_attained n :
  0 < n ->
  let O := nseq n (nseq n 0%Z) in
  differs_mod32 n (matmul n O O) (corner n) /\
  accepting O O (corner n) = 2 ^ n.-1.
Proof.
move=> n0 /=; split.
  apply/hasP; exists 0; first by rewrite mem_iota.
  apply/hasP; exists 0; first by rewrite mem_iota.
  rewrite get_matmul // get_corner // sumZ_zero // => j _.
  by rewrite get_zero_matrix.
rewrite /accepting size_nseq.
rewrite (@eq_count _ _ (fun v => (nth 0%Z v 0%N mod 2 ^ 32)%Z == 0%Z)).
  by move=> v; rewrite /= corner_trial //; case: ((_ mod _)%Z == _).
case: n n0 => [//|n] _ /=.
by rewrite count_cat !count_map /= count_predT count_pred0 addn0 size_all_vectors.
Qed.

Lemma false_positive_bound_attained_witness :
  let O := nseq 3 (nseq 3 0%Z) in
  differs_mod32 3 (matmul 3 O O) (corner 3) /\
  accepting O O (corner 3) = 2 ^ 3.-1.
Proof. exact: (@false_positive_bound_attained 3). Defined.

(* --- main() ------------------------------------------------------------- *)

(* main(): the lines written to std::cout and the returned value; rnds c is
   what the generator of the c-th call of freivaldsVerify yields *)
Definition main (rnds : nat -> nat -> Z) : option (seq string * Z) :=
  let k := 10 in
  if freivaldsVerify A_main B_main C_correct (rnds 0) is Some result1 then
    if freivaldsVerify A_main B_main C_incorrect (rnds 1) is Some result2 then
      if verify_repeatedly A_main B_main C_incorrect k (fun i => rnds (2 + i))
      is Some overallResult then
        Some ([:: "Verifying A * B = C_correct (should be true):"%string;
                  String.append "Result: "
                    (if result1 then "Verified" else "Failed")%string;
                  ""%string;
                  "Verifying A * B = C_incorrect (should be false):"%string;
                  String.append "Result: "
                    (if result2 then "Verified" else "Failed")%string;
                  String.append
                    "After 10 iterations, verification of incorrect C: "
                    (if overallResult then "Verified (False Positive)"
                     else "Failed (Correctly Identified)")%string],
              0%Z)
      else None
    else None
  else None.

Lemma trial_correct rnd :
  freivaldsVerify A_main B_main C_correct rnd = Some true.
Proof.
rewrite (@freivaldsVerify_square 3) //.
have <- : C_correct = matmul 3 A_main B_main by vm_compute.
by rewrite eqxx.
Qed.

Lemma mod_opp_zero a m : ((- a) mod m == 0)%Z = (a mod m == 0)%Z.
Proof.
apply/eqP/eqP => H; first by rewrite -(Z.opp_involutive a); apply: Z_mod_zero_opp_full.
exact: Z_mod_zero_opp_full.
Qed.

Lemma sumZ3 f : sumZ 3 f = (f 0%N + f 1%N + f 2%N)%Z.
Proof. by rewrite !sumZS. Qed.

(* A*B - C_incorrect is -1 in the last entry and 0 elsewhere *)
Lemma residual_main i k :
  i < 3 -> k < 3 ->
  (get (matmul 3 A_main B_main) i k - get C_incorrect i k)%Z =
  if (i == 2) && (k == 2) then (-1)%Z else 0%Z.
Proof.
by case: i => [|[|[|i]]] //; case: k => [|[|[|k]]] // _ _; vm_compute.
Qed.

Lemma trial_incorrect rnd :
  freivaldsVerify A_main B_main C_incorrect rnd =
  Some ((rnd 2%N mod 2 ^ 32)%Z == 0%Z).
Proof.
rewrite (@trial_residual 3) //; congr (Some _).
have E (i : nat) : i < 3 ->
    sumZ 3 (fun k => (get (matmul 3 A_main B_main) i k - get C_incorrect i k)
                     * rnd k)%Z
    = if i == 2 then (- rnd 2%N)%Z else 0%Z.
  move=> lti; rewrite sumZ3 !residual_main //.
  by case: i lti => [|[|[|i]]] //= _; lia.
rewrite -[iota 0 3]/[:: 0; 1; 2] /all !E //.
by rewrite -[1 == 2]/false -[0 == 2]/false eqxx mod_opp_zero Zmod_0_l eqxx andbT.
Qed.

Lemma verify_repeatedly_defined A B C k rnds :
  (forall i, i < k -> isSome (freivaldsVerify A B C (rnds i))) ->
  verify_repeatedly A B C k rnds =
  Some (all (fun i => freivaldsVerify A B C (rnds i) == Some true) (iota 0 k)).
Proof.
elim: k rnds => [//|k IH] rnds H; rewrite verify_repeatedlyS.
rewrite -[iota 0 k.+1]/(0 :: iota 1 k) /= (iotaDl 1 0 k) all_map.
have := H 0 isT; case: (freivaldsVerify A B C (rnds 0)) => [[]|] //= _.
by rewrite IH // => i lti; apply: (H i.+1).
Qed.

(** X11: main() writes the same six lines for every output of the generators,
    up to two verdicts: the correct product is always reported as Verified,
    the incorrect one is reported as Verified exactly when the third entry
    of the random vector is 0 modulo 2^32, and the last line reports a false
    positive exactly when that holds in each of the ten further trials;
    main returns 0. *)
Theorem freivalds_main_output rnds :
  main rnds =
  Some ([:: "Verifying A * B = C_correct (should be true):"%string;
            "Result: Verified"%string;
            ""%string;
            "Verifying A * B = C_incorrect (should be false):"%string;
            (if (rnds 1%N 2%N mod 2 ^ 32)%Z == 0%Z then "Result: Verified"
             else "Result: Failed")%string;
            (if all (fun i => (rnds (2 + i)%N 2%N mod 2 ^ 32)%Z == 0%Z) (iota 0 10)
             then "After 10 iterations, verification of incorrect C: Verified (False Positive)"
             else "After 10 iterations, verification of incorrect C: Failed (Correctly Identified)")%string],
        0%Z).
Proof.
have Hdef i : i < 10 ->
    isSome (freivaldsVerify A_main B_main C_incorrect (rnds (2 + i))).
  by rewrite trial_incorrect.
have Hall : all (fun i => freivaldsVerify A_main B_main C_incorrect
                            (rnds (2 + i)) == Some true) (iota 0 10)
          = all (fun i => (rnds (2 + i)%N 2%N mod 2 ^ 32)%Z == 0%Z) (iota 0 10).
  by apply: eq_all => i; rewrite trial_incorrect; case: ((_ mod _)%Z == _).
rewrite /main trial_correct trial_incorrect (verify_repeatedly_defined Hdef) Hall.
by case: (_ == _); case: (all _ _).
Qed.

End Freivalds.

(* ====================================================================== *)
(* Fermat's little theorem over Z, from MathComp's over nat                *)
(* ====================================================================== *)


Lemma Z_of_nat_expn (a n : nat) : Z.of_nat (a ^ n) = (Z.of_nat a ^ Z.of_nat n)%Z.
Proof.
elim: n => [//|n IH]; rewrite expnS -multE Nat2Z.inj_mul IH Nat2Z.inj_succ.
by rewrite Z.pow_succ_r //; apply: Nat2Z.is_nonneg.
Qed.

Lemma Z_of_nat_modn (m d : nat) :
  0 < d -> Z.of_nat (m %% d) = (Z.of_nat m mod Z.of_nat d)%Z.
Proof.
move=> d0; apply: (@Z.mod_unique_pos _ _ (Z.of_nat (m %/ d))).
  by split; [apply: Nat2Z.is_nonneg | apply/Nat2Z.inj_lt/ltP; rewrite ltn_pmod].
by rewrite {1}(divn_eq m d) -plusE -multE Nat2Z.inj_add Nat2Z.inj_mul Z.mul_comm.
Qed.

Section FermatZ.

Variable q : Z.
Hypothesis q_gt1 : (1 < q)%Z.
Hypothesis q_nodiv : forall d, (1 < d < q)%Z -> (q mod d <> 0)%Z.

Lemma prime_to_nat : prime (Z.to_nat q).
Proof.
apply/primeP; split; first by apply/ltP; lia.
move=> d /dvdnP[e He]; apply/norP => -[/eqP d1 /eqP dq].
have Hq : q = (Z.of_nat e * Z.of_nat d)%Z.
  by rewrite -Nat2Z.inj_mul multE -He Z2Nat.id; lia.
apply: (q_nodiv (d := Z.of_nat d)); last by rewrite Hq Z.mod_mul; lia.
have d0 : d <> 0 by move=> d0; move: Hq; rewrite d0; lia.
have e1 : e <> 1.
  by move=> e1; apply: dq; rewrite He e1 mul1n.
have e0 : e <> 0 by move=> e0; move: Hq; rewrite e0; lia.
nia.
Qed.

Lemma fermat_Z a : (0 < a < q)%Z -> ((a * a ^ (q - 2)) mod q = 1)%Z.
Proof.
move=> Ha.
set n := Z.to_nat q; set b := Z.to_nat a.
have pr : prime n := prime_to_nat.
have n0 : 0 < n by apply: prime_gt0.
have b0 : 0 < b by apply/ltP; rewrite /b; lia.
have cop : coprime n b.
  rewrite prime_coprime //; apply/negP => /dvdn_leq-/(_ b0)/leP.
  rewrite /n /b; lia.
have e1 : 0 < b ^ n.-1 by rewrite expn_gt0 b0.
have : b ^ n.-1 == 1 %[mod n].
  rewrite eqn_mod_dvd // -(Gauss_dvdr _ cop) mulnBr muln1 -expnS prednK //.
  rewrite -eqn_mod_dvd; first by rewrite -{1}(expn1 b) leq_pexp2l.
  by apply/eqP; apply: fermat_little.
move/eqP/(congr1 Z.of_nat); rewrite !Z_of_nat_modn // Z_of_nat_expn.
have -> : Z.of_nat n = q by rewrite /n; lia.
have -> : Z.of_nat b = a by rewrite /b; lia.
have -> : Z.of_nat n.-1 = (q - 1)%Z.
  by rewrite -subn1 -minusE Nat2Z.inj_sub; rewrite /n; lia.
have -> : (Z.of_nat 1 mod q = 1)%Z by rewrite Z.mod_small /=; lia.
have -> : (q - 1 = Z.succ (q - 2))%Z by lia.
by rewrite Z.pow_succ_r; lia.
Qed.

End FermatZ.


(* ====================================================================== *)
(* perfect_bipartite.cpp                                                   *)
(* ====================================================================== *)

Module Matching.

(* const ll p = 1000000007; *)
Definition p : Z := 1000000007%Z.

(* long long: 64 bits, two's complement; % truncates towards zero *)
Definition wrap64 (z : Z) : Z := ((z + 2 ^ 63) mod 2 ^ 64 - 2 ^ 63)%Z.
Definition ll_add (a b : Z) : Z := wrap64 (a + b).
Definition ll_sub (a b : Z) : Z := wrap64 (a - b).
Definition ll_mul (a b : Z) : Z := wrap64 (a * b).
Definition ll_rem (a b : Z) : Z := Z.rem a b.

(* the body of `while (exp > 0)` for exp > 0: the iterations follow the
   binary digits of exp, lowest first (exp % 2 == 1, then exp /= 2) *)
Fixpoint power_loop (res base : Z) (exp : positive) : Z :=
  match exp with
  | xI e =>
      power_loop (ll_rem (ll_mul res base) p) (ll_rem (ll_mul base base) p) e
  | xO e => power_loop res (ll_rem (ll_mul base base) p) e
  | xH => ll_rem (ll_mul res base) p
  end.

Definition power (base exp : Z) : Z :=
  let res := 1%Z in
  let base := ll_rem base p in
  match exp with
  | Zpos e => power_loop res base e
  | _ => res
  end.

Definition modInverse (n : Z) : Z := power n (ll_sub p 2).

(* A[i][j] = v;  (A[i][j] is get A i j: the model reads 0 outside the
   matrix; every index modularDeterminant uses on an n x n matrix is
   inside it) *)
Definition put (A : Matrix) (i j : nat) (v : Z) : Matrix :=
  set_nth [::] A i (set_nth 0%Z (nth [::] A i) j v).

(* std::swap(A[k], A[pivot]) *)
Definition swap_rows (A : Matrix) (k pivot : nat) : Matrix :=
  set_nth [::] (set_nth [::] A k (nth [::] A pivot)) pivot (nth [::] A k).

(* what modularDeterminant does, in order: the arguments it passes to
   modInverse, the entries it stores and the values it gives to det *)
Inductive event :=
  | CallModInverse (a : Z)
  | StoreEntry (i j : nat) (v : Z)
  | SetDet (v : Z).

Record state := State { mat : Matrix; det : Z; trace : seq event }.

Definition note (e : event) (st : state) : state :=
  State (mat st) (det st) (rcons (trace st) e).

Definition store (i j : nat) (v : Z) (st : state) : state :=
  note (StoreEntry i j v) (State (put (mat st) i j v) (det st) (trace st)).

Definition set_det (v : Z) (st : state) : state :=
  note (SetDet v) (State (mat st) v (trace st)).

Definition call_modInverse (a : Z) (st : state) : Z * state :=
  (modInverse a, note (CallModInverse a) st).

(* while (pivot < n && A[pivot][k] == 0) pivot++; *)
Fixpoint find_pivot (fuel : nat) (A : Matrix) (n k pivot : nat) : nat :=
  if fuel is f.+1 then
    if (pivot < n) && (get A pivot k == 0%Z) then find_pivot f A n k pivot.+1
    else pivot
  else pivot.

(* ll term = (factor * A[k][j]) % p;  A[i][j] = (A[i][j] - term + p) % p; *)
Definition elim_entry (k i : nat) (factor : Z) (j : nat) (st : state) : state :=
  let A := mat st in
  let term := ll_rem (ll_mul factor (get A k j)) p in
  store i j (ll_rem (ll_add (ll_sub (get A i j) term) p) p) st.

(* the body of `for (int i = k + 1; i < n; ++i)` *)
Definition elim_row (n k i : nat) (st : state) : state :=
  let A := mat st in
  let: (inv, st1) := call_modInverse (get A k k) st in
  let factor := ll_rem (ll_mul (get A i k) inv) p in
  for_range (n - k) k (elim_entry k i factor) st1.

(* if (k != pivot) { std::swap(A[k], A[pivot]); det = (p - det) % p; } *)
Definition exchange (k pivot : nat) (st : state) : state :=
  if k != pivot then
    set_det (ll_rem (ll_sub p (det st)) p)
            (State (swap_rows (mat st) k pivot) (det st) (trace st))
  else st.

(* the body of `for (int k = 0; k < n; ++k)`; inl (v, st) is `return v` *)
Definition pivot_step (n k : nat) (st : state) : Z * state + state :=
  let pivot := find_pivot n (mat st) n k k in
  if pivot == n then inl (0%Z, st)
  else inr (for_range (n - k.+1) k.+1 (elim_row n k) (exchange k pivot st)).

(* det = (det * A[i][i]) % p; *)
Definition diag_step (i : nat) (st : state) : state :=
  set_det (ll_rem (ll_mul (det st) (get (mat st) i i)) p) st.

(* the returned value, with the final matrix (A is modified in place) and
   the trace; st0 is the state after `ll det = 1;` *)
Definition modularDeterminant_run (A : Matrix) : Z * state :=
  let n := size A in
  let st0 := set_det 1%Z (State A 0%Z [::]) in
  match for_loop n 0 (pivot_step n) st0 with
  | inl ret => ret
  | inr st =>
      let st' := for_range n 0 diag_step st in
      (ll_rem (ll_add (det st') p) p, st')
  end.

Definition modularDeterminant (A : Matrix) : Z := (modularDeterminant_run A).1.

(* the body of the two loops that fill A_prime; t counts the calls of
   distribution(generator), whose t-th value is draws t, in [1, p-1] *)
Definition fill_entry (graph : seq (seq Z)) (draws : nat -> Z) (i j : nat)
    (s : Matrix * nat) : fault + Matrix * nat :=
  let: (A_prime, t) := s in
  if j < size (nth [::] graph i) then
    if get graph i j == 1%Z then
      inr (put A_prime i j (draws t), t.+1)
    else inr (put A_prime i j 0%Z, t)
  else inl OutOfBounds.

Definition hasPerfectMatching (graph : seq (seq Z)) (draws : nat -> Z)
    : option bool :=
  let n := size graph in
  if n == 0 then Some true
  else
    let A_prime := nseq n (nseq n 0%Z) in
    match for_loop n 0 (fun i => for_loop n 0 (fill_entry graph draws i))
                   (A_prime, 0) with
    | inl _ => None
    | inr (A_prime, _) => Some (modularDeterminant A_prime != 0%Z)
    end.

(* what hasPerfectMatching does besides returning a value, in order: it
   seeds a generator, draws values from it, calls modularDeterminant *)
Inductive effect :=
  | SeedGenerator
  | Draw (v : Z)
  | CallModularDeterminant (A : Matrix).

(* the body of the two loops that fill A_prime, with the log of effects *)
Definition fill_entry_run (graph : seq (seq Z)) (draws : nat -> Z) (i j : nat)
    (s : Matrix * nat * seq effect) : fault + Matrix * nat * seq effect :=
  let: (A_prime, t, log) := s in
  if j < size (nth [::] graph i) then
    if get graph i j == 1%Z then
      inr (put A_prime i j (draws t), t.+1, rcons log (Draw (draws t)))
    else inr (put A_prime i j 0%Z, t, log)
  else inl OutOfBounds.

(* hasPerfectMatching with the log of its effects: `if (n == 0) return true;`
   comes before the generator is created *)
Definition hasPerfectMatching_run (graph : seq (seq Z)) (draws : nat -> Z)
    : option (bool * seq effect) :=
  let n := size graph in
  if n == 0 then Some (true, [::])
  else
    let log := [:: SeedGenerator] in
    let A_prime := nseq n (nseq n 0%Z) in
    match for_loop n 0 (fun i => for_loop n 0 (fill_entry_run graph draws i))
                   (A_prime, 0, log) with
    | inl _ => None
    | inr (A_prime, _, log) =>
        Some (modularDeterminant A_prime != 0%Z,
              rcons log (CallModularDeterminant A_prime))
    end.

(* the log when t values have been drawn *)
Definition drawn (draws : nat -> Z) (t : nat) : seq effect :=
  SeedGenerator :: [seq Draw (draws k) | k <- iota 0 t].

(* --- specification side ------------------------------------------------ *)

(* entries in [0, p-1] *)
Definition in_field (v : Z) : bool := (0 <=? v)%Z && (v <? p)%Z.

Definition reduced (A : Matrix) : bool := all (all in_field) A.

(* the m x m block of A whose upper left corner is (k, k), over the ring Z *)
Definition block (k m : nat) (A : Matrix) : 'M[Z]_m :=
  \matrix_(i < m, j < m) get A (k + i) (k + j).

(* the integer determinant of an n x n matrix *)
Definition determinant (n : nat) (A : Matrix) : Z := (\det (block 0 n A))%R.

(* A without row i and column 0, as an m x m matrix *)
Definition minor0 (m i : nat) (A : Matrix) : Matrix :=
  mkseq (fun i' => mkseq (fun j' => get A (bump i i') j'.+1) m) m.

(* the same determinant by expansion along the first column: it computes *)
Fixpoint laplace (n : nat) (A : Matrix) : Z :=
  if n is m.+1 then
    sumZ m.+1 (fun i =>
      get A i 0 * ((if odd i then -1 else 1) * laplace m (minor0 m i A)))%Z
  else 1%Z.

(* a perfect matching of the bipartite graph with n left and n right
   vertices: a bijection s with an edge (i, s i) for every left vertex i *)
Definition perfect_matching (n : nat) (graph : seq (seq Z)) : Prop :=
  exists s : 'S_n, forall i : 'I_n, get graph i (s i) = 1%Z.

(* congruence modulo p *)
Definition cong (a b : Z) : Prop := (a mod p = b mod p)%Z.

(* what the trace may hold when the input is reduced *)
Definition event_ok (e : event) : bool :=
  match e with
  | CallModInverse a => in_field a && (a != 0%Z)
  | StoreEntry _ _ v => in_field v
  | SetDet v => in_field v
  end.

Definition good (st : state) : Prop :=
  [/\ forall i j, in_field (get (mat st) i j), in_field (det st)
    & all event_ok (trace st)].

(* the invariant of the loop over k; D0 is the determinant of the input *)
Definition Inv (D0 : Z) (n k : nat) (st : state) : Prop :=
  good st /\
  cong D0 (det st * (\prod_(0 <= i < k) get (mat st) i i)
           * \det (block k (n - k) (mat st)))%R.

(* within the modulus on either side: what `%` leaves of any long long *)
Definition small (v : Z) : Prop := (- p < v < p)%Z.

(* --- the matrix that hasPerfectMatching builds ------------------------- *)

(* the edges of row i in the columns before j *)
Definition row_edges (graph : Matrix) (i j : nat) : nat :=
  count (fun j' => get graph i j' == 1%Z) (iota 0 j).

(* the edges before (i, j) in the order of the two loops: the number of
   values drawn when entry (i, j) is reached *)
Definition edge_rank (graph : Matrix) (n i j : nat) : nat :=
  sumn [seq row_edges graph i' n | i' <- iota 0 i] + row_edges graph i j.

(* A_prime after the two loops: an edge holds the draw of its rank *)
Definition edmonds (n : nat) (graph : Matrix) (draws : nat -> Z) : Matrix :=
  mkseq (fun i => mkseq (fun j =>
    if get graph i j == 1%Z then draws (edge_rank graph n i j) else 0%Z) n) n.

(* --- what modularDeterminant does to its argument ----------------------- *)



(* columns 0 .. k-1 are zero below the diagonal *)
Definition echelon (n k : nat) (A : Matrix) : Prop :=
  forall i j, j < k -> j < i < n -> get A i j = 0%Z.

(* --- proofs ------------------------------------------------------------ *)

(* --- the modulus --------------------------------------------------------- *)

Fixpoint no_divisor (fuel : nat) (q d : Z) : bool :=
  if fuel is f.+1 then ~~ (q mod d =? 0)%Z && no_divisor f q (d + 1)%Z
  else true.

Lemma no_divisorP fuel q d0 d :
  no_divisor fuel q d0 -> (d0 <= d < d0 + Z.of_nat fuel)%Z -> (q mod d <> 0)%Z.
Proof.
elim: fuel d0 => [|f IH] d0 /=; first lia.
case/andP=> /negP Hd0 Hf Hd.
have [->|ne] := Z.eq_dec d d0; first by move/Z.eqb_spec.
by apply: (IH _ Hf); lia.
Qed.

Lemma p_range : (2 < p < 2 ^ 31)%Z.
Proof. by rewrite /p; lia. Qed.

Lemma p_trial : no_divisor 31622 p 2.
Proof. by vm_compute. Qed.

Lemma p_nodiv d : (1 < d < p)%Z -> (p mod d <> 0)%Z.
Proof.
move=> Hd H0.
have Hsmall e : (2 <= e < 31624)%Z -> (p mod e <> 0)%Z.
  move=> He; apply: (no_divisorP p_trial).
  have -> : Z.of_nat 31622 = 31622%Z by vm_compute.
  lia.
have [lt|ge] := Z_lt_ge_dec d 31624; first by apply: (Hsmall d) => //; lia.
have Hp : (p = d * (p / d))%Z.
  by have := Z.div_mod p d; rewrite H0; lia.
apply: (Hsmall (p / d)%Z).
  by move: Hp Hd ge; rewrite /p; nia.
by rewrite {1}Hp Z.mod_mul //; move: Hp Hd; rewrite /p; nia.
Qed.

Lemma p_gt1 : (1 < p)%Z.
Proof. by have := p_range; lia. Qed.

Lemma fermat_p a : (0 < a < p)%Z -> ((a * a ^ (p - 2)) mod p = 1)%Z.
Proof. exact: (fermat_Z p_gt1 p_nodiv). Qed.

(* --- arithmetic of long long inside the field ---------------------------- *)

Lemma in_fieldP v : reflect (0 <= v < p)%Z (in_field v).
Proof.
rewrite /in_field; apply: (iffP andP) => [[/Z.leb_spec0 ? /Z.ltb_spec0 ?] //|].
by case=> ? ?; split; [apply/Z.leb_spec0 | apply/Z.ltb_spec0].
Qed.

Lemma wrap64_small z : (- 2 ^ 63 <= z < 2 ^ 63)%Z -> wrap64 z = z.
Proof. by move=> H; rewrite /wrap64 Z.mod_small; lia. Qed.

Lemma mod_in_field z : in_field (z mod p).
Proof. by apply/in_fieldP; apply: Z.mod_pos_bound; have := p_range; lia. Qed.

Lemma mul_bound a b :
  in_field a -> in_field b -> (0 <= a * b < 2 ^ 62)%Z.
Proof.
move=> /in_fieldP Ha /in_fieldP Hb; have Hp := p_range.
split; first by apply: Z.mul_nonneg_nonneg; lia.
have -> : (2 ^ 62 = 2 ^ 31 * 2 ^ 31)%Z by [].
by apply: Z.mul_lt_mono_nonneg; lia.
Qed.

Lemma mul_field a b :
  in_field a -> in_field b -> ll_rem (ll_mul a b) p = ((a * b) mod p)%Z.
Proof.
move=> Ha Hb; have Hp := p_range; have Hab := mul_bound Ha Hb.
rewrite /ll_rem /ll_mul wrap64_small; try lia.
by rewrite Z.rem_mod_nonneg; lia.
Qed.

Lemma sub_field a t :
  in_field a -> in_field t ->
  ll_rem (ll_add (ll_sub a t) p) p = ((a - t) mod p)%Z.
Proof.
move=> /in_fieldP Ha /in_fieldP Ht; have Hp := p_range.
rewrite /ll_rem /ll_add /ll_sub !wrap64_small; try lia.
rewrite Z.rem_mod_nonneg; try lia.
rewrite -(Z.mod_add (a - t) 1 p); try lia.
by congr (_ mod _)%Z; lia.
Qed.

Lemma neg_field d :
  in_field d -> ll_rem (ll_sub p d) p = ((- d) mod p)%Z.
Proof.
move=> /in_fieldP Hd; have Hp := p_range.
rewrite /ll_rem /ll_sub wrap64_small; try lia.
rewrite Z.rem_mod_nonneg; try lia.
rewrite -(Z.mod_add (- d) 1 p); try lia.
by congr (_ mod _)%Z; lia.
Qed.

Lemma add_p_field d : in_field d -> ll_rem (ll_add d p) p = d.
Proof.
move=> /in_fieldP Hd; have Hp := p_range.
rewrite /ll_rem /ll_add wrap64_small; try lia.
rewrite Z.rem_mod_nonneg; try lia.
rewrite -{1}(Z.mul_1_l p) Z.mod_add; try lia.
by rewrite Z.mod_small; lia.
Qed.

(* --- power and modInverse ------------------------------------------------- *)

Lemma power_loopE e res base :
  in_field res -> in_field base ->
  power_loop res base e = ((res * base ^ Zpos e) mod p)%Z.
Proof.
have Hp := p_range.
elim: e res base => [e IH|e IH|] res base Hr Hb; rewrite [LHS]/=.
- rewrite !mul_field // IH ?mod_in_field //.
  rewrite Pos2Z.inj_xI Z.pow_add_r // Z.pow_1_r Z.pow_mul_r //.
  rewrite Z.pow_2_r Z.mul_mod_idemp_l; try lia.
  rewrite -Z.mul_mod_idemp_r; try lia.
  rewrite Z.mod_pow_l Z.mul_mod_idemp_r; try lia.
  by congr (_ mod _)%Z; lia.
- rewrite !mul_field // IH ?mod_in_field //.
  rewrite Pos2Z.inj_xO Z.pow_mul_r // Z.pow_2_r.
  rewrite -Z.mul_mod_idemp_r; try lia.
  by rewrite Z.mod_pow_l Z.mul_mod_idemp_r; lia.
- by rewrite mul_field // Z.pow_1_r.
Qed.

Lemma powerE b e :
  in_field b -> (0 <= e)%Z -> power b e = ((b ^ e) mod p)%Z.
Proof.
move=> Hb He; have Hp := p_range; have /in_fieldP Hb' := Hb.
rewrite /power /ll_rem Z.rem_mod_nonneg; try lia.
rewrite (Z.mod_small b) //.
case: e He => [|e|e] // _.
by rewrite power_loopE // ?Z.mul_1_l.
Qed.

Lemma modInverseE a : in_field a -> modInverse a = ((a ^ (p - 2)) mod p)%Z.
Proof.
move=> Ha; have Hp := p_range.
by rewrite /modInverse /ll_sub wrap64_small ?powerE //; lia.
Qed.

Lemma modInverse_in_field a : in_field a -> in_field (modInverse a).
Proof. by move=> Ha; rewrite modInverseE // mod_in_field. Qed.

Lemma modInverse_mul a :
  in_field a -> a <> 0%Z -> ((a * modInverse a) mod p = 1)%Z.
Proof.
move=> Ha a0; have /in_fieldP Ha' := Ha; have Hp := p_range.
rewrite modInverseE // Z.mul_mod_idemp_r; try lia.
by apply: fermat_p; lia.
Qed.

Lemma modInverse0 : modInverse 0 = 0%Z.
Proof. by vm_compute. Qed.

Import GRing.Theory.

(* --- congruence modulo p ------------------------------------------------- *)

Section Congruence.

Local Open Scope ring_scope.

Lemma cong_refl a : cong a a. Proof. by []. Qed.

Lemma cong_sym a b : cong a b -> cong b a.
Proof. by rewrite /cong => ->. Qed.

Lemma cong_trans b a c : cong a b -> cong b c -> cong a c.
Proof. by rewrite /cong => -> ->. Qed.

Lemma cong_mod a : cong (a mod p)%Z a.
Proof. by rewrite /cong Z.mod_mod //; have := p_range; lia. Qed.

Lemma cong_add a b c d : cong a b -> cong c d -> cong (a + c)%R (b + d)%R.
Proof.
by rewrite /cong !ZaddE => H1 H2; rewrite Zplus_mod H1 H2 -Zplus_mod.
Qed.

Lemma cong_mul a b c d : cong a b -> cong c d -> cong (a * c)%R (b * d)%R.
Proof.
by rewrite /cong !ZmulE => H1 H2; rewrite Zmult_mod H1 H2 -Zmult_mod.
Qed.

Lemma cong_opp a b : cong a b -> cong (- a)%R (- b)%R.
Proof.
move=> H; rewrite -[(- a)%R]mulN1r -[(- b)%R]mulN1r.
by apply: cong_mul.
Qed.

Lemma cong_in_field a b : in_field a -> cong a b -> a = (b mod p)%Z.
Proof. by move=> /in_fieldP Ha <-; rewrite Z.mod_small. Qed.

Lemma cong_sum (I : Type) (r : seq I) (P : pred I) (F G : I -> Z) :
  (forall i, P i -> cong (F i) (G i)) ->
  cong (\sum_(i <- r | P i) F i) (\sum_(i <- r | P i) G i).
Proof.
by move=> H; elim/big_rec2: _ => // i y1 y2 Pi; apply: cong_add; apply: H.
Qed.

Lemma cong_prod (I : Type) (r : seq I) (P : pred I) (F G : I -> Z) :
  (forall i, P i -> cong (F i) (G i)) ->
  cong (\prod_(i <- r | P i) F i) (\prod_(i <- r | P i) G i).
Proof.
by move=> H; elim/big_rec2: _ => // i y1 y2 Pi; apply: cong_mul; apply: H.
Qed.

Lemma det_cong m (M N : 'M[Z]_m) :
  (forall i j, cong (M i j) (N i j)) -> cong (\det M) (\det N).
Proof.
move=> H; apply: cong_sum => s _; apply: cong_mul => //.
by apply: cong_prod => i _.
Qed.

End Congruence.

(* --- determinants and elementary row operations -------------------------- *)

Section RowOps.

Local Open Scope ring_scope.

Variable R : comNzRingType.

Lemma det_add_row m (M : 'M[R]_m) (i0 k0 : 'I_m) (c : R) :
  i0 != k0 ->
  \det (\matrix_(i, j) (if i == i0 then M i0 j + c * M k0 j else M i j)) = \det M.
Proof.
move=> ne; set N := \matrix_(i, j) _.
pose C : 'M[R]_m := \matrix_(i, j) (if i == i0 then M k0 j else M i j).
have -> : \det N = 1 * \det M + c * \det C.
  apply: (@determinant_multilinear _ _ N M C i0).
  - by apply/rowP => j; rewrite !mxE eqxx mul1r.
  - by apply/matrixP => i j; rewrite !mxE eq_sym (negPf (neq_lift _ _)).
  - by apply/matrixP => i j; rewrite !mxE eq_sym (negPf (neq_lift _ _)).
rewrite (@determinant_alternate _ _ C i0 k0) // ?mulr0 ?addr0 ?mul1r // => j.
by rewrite !mxE eqxx eq_sym (negPf ne).
Qed.

Lemma det_xrow m (M : 'M[R]_m) (i1 i2 : 'I_m) :
  \det (xrow i1 i2 M) = (if i1 == i2 then 1 else -1) * \det M.
Proof.
rewrite xrowE det_mulmx det_perm odd_tperm.
by case: eqP.
Qed.

Lemma det_zero_col m (M : 'M[R]_m) (j0 : 'I_m) :
  (forall i, M i j0 = 0) -> \det M = 0.
Proof.
by move=> H; rewrite (expand_det_col M j0) big1 // => i _; rewrite H mul0r.
Qed.

Lemma det_first_col m (M : 'M[R]_(1 + m)) :
  (forall i : 'I_m, M (rshift 1 i) 0 = 0) ->
  \det M = M 0 0 * \det (drsubmx M).
Proof.
move=> H; rewrite -{1}(submxK M).
have -> : dlsubmx M = 0.
  apply/matrixP => i j; rewrite !mxE.
  by have -> : lshift m j = 0 by apply/val_inj; rewrite /= ord1.
rewrite det_ublock det_mx11 !mxE.
by congr (M _ _ * _); apply/val_inj.
Qed.

End RowOps.

(* --- reading and writing the matrix -------------------------------------- *)

Lemma get_put A i j v i' j' :
  get (put A i j v) i' j' = if (i' == i) && (j' == j) then v else get A i' j'.
Proof.
rewrite /get /put nth_set_nth /=; case: eqP => [->|_] //=.
by rewrite nth_set_nth.
Qed.

Lemma get_swap_rows A k pv i j :
  get (swap_rows A k pv) i j =
  get A (if i == pv then k else if i == k then pv else i) j.
Proof.
rewrite /get /swap_rows nth_set_nth /=; case: (i == pv) => //.
by rewrite nth_set_nth /=; case: (i == k).
Qed.

Lemma in_field0 : in_field 0.
Proof. by []. Qed.

Lemma reduced_get A i j : reduced A -> in_field (get A i j).
Proof.
move=> /allP H; rewrite /get.
have [lti|gei] := ltnP i (size A); last by rewrite (nth_default _ gei) nth_nil.
have /allP Hr := H _ (mem_nth [::] lti).
have [ltj|gej] := ltnP j (size (nth [::] A i)); first exact/Hr/mem_nth.
by rewrite (nth_default _ gej).
Qed.

(* --- the states modularDeterminant goes through --------------------------- *)

Lemma good_note e st : good st -> event_ok e -> good (note e st).
Proof. by case=> Hm Hd Ht He; split=> //=; rewrite all_rcons He. Qed.

Lemma good_set_det v st : good st -> in_field v -> good (set_det v st).
Proof. by case=> Hm Hd Ht Hv; split=> //=; rewrite all_rcons /= Hv. Qed.

Lemma elim_zero a b :
  in_field a -> in_field b -> b <> 0%Z ->
  ((a - (a * modInverse b) mod p * b) mod p = 0)%Z.
Proof.
move=> Ha Hb b0; have Hp := p_range.
apply/Z.cong_iff_0; rewrite Z.mul_mod_idemp_l; try lia.
rewrite -Z.mul_assoc (Z.mul_comm _ b) -Z.mul_mod_idemp_r; try lia.
by rewrite modInverse_mul // Z.mul_1_r.
Qed.

Section Elimination.

Variables (n k : nat).
Hypothesis lekn : k <= n.

(* the loop over j *)
Lemma elim_entries i f st :
  good st -> in_field f -> i != k ->
  let st' := for_range (n - k) k (elim_entry k i f) st in
  [/\ good st', det st' = det st
    & forall i' j', get (mat st') i' j' =
        if (i' == i) && (k <= j' < n) then
          ((get (mat st) i j' - f * get (mat st) k j') mod p)%Z
        else get (mat st) i' j'].
Proof.
move=> gst Hf ik.
pose I j t := [/\ good t, det t = det st
    & forall i' j', get (mat t) i' j' =
        if (i' == i) && (k <= j' < j) then
          ((get (mat st) i j' - f * get (mat st) k j') mod p)%Z
        else get (mat st) i' j'].
suff: I (k + (n - k)) (for_range (n - k) k (elim_entry k i f) st).
  by rewrite subnKC.
apply: for_range_inv => [|j t /andP[kj _] [[Hm Hd Ht] Hdet Hget]].
  by split=> // i' j'; rewrite ltnNge andbC; case: (k <= j') => //=; rewrite andbF.
have Hp := p_range.
rewrite /elim_entry /store.
have -> : get (mat t) k j = get (mat st) k j.
  by rewrite Hget eq_sym (negPf ik).
have -> : get (mat t) i j = get (mat st) i j.
  by rewrite Hget ltnn !andbF.
case: gst => Hm0 _ _.
rewrite mul_field // sub_field ?mod_in_field //.
rewrite Zminus_mod_idemp_r.
set v := (_ mod p)%Z.
split=> [||i' j'] //=.
- split=> //= [i' j'|]; last by rewrite all_rcons /= mod_in_field.
  by rewrite get_put; case: ifP => // _; rewrite mod_in_field.
- rewrite get_put Hget ltnS [j' <= j]leq_eqVlt.
  case: (i' == i) => //=; case: (j' =P j) => [->|_] /=; last by [].
  by rewrite kj.
Qed.

(* the body of the loop over i *)
Lemma elim_rowE i st :
  good st -> k < i -> get (mat st) k k <> 0%Z ->
  let A := mat st in
  let f := ((get A i k * modInverse (get A k k)) mod p)%Z in
  let st' := elim_row n k i st in
  [/\ good st', det st' = det st
    & forall i' j', get (mat st') i' j' =
        if (i' == i) && (k <= j' < n) then
          ((get A i j' - f * get A k j') mod p)%Z
        else get A i' j'].
Proof.
move=> gst ki akk0 A f; rewrite /elim_row /call_modInverse.
have [Hm Hd Ht] := gst.
rewrite (mul_field (Hm i k) (modInverse_in_field (Hm k k))).
apply: elim_entries.
- by apply: good_note => //=; rewrite Hm; apply/eqP.
- exact: mod_in_field.
- by rewrite gtn_eqF.
Qed.

End Elimination.

Lemma find_pivotP fuel A n k pv0 :
  n - pv0 <= fuel -> pv0 <= n ->
  let pv := find_pivot fuel A n k pv0 in
  [/\ pv0 <= pv <= n, forall i, pv0 <= i < pv -> get A i k = 0%Z
    & pv < n -> get A pv k <> 0%Z].
Proof.
elim: fuel pv0 => [|f IH] pv0 /=.
  rewrite leqn0 subn_eq0 => le1 le2.
  have -> : pv0 = n by apply/eqP; rewrite eqn_leq le1 le2.
  by rewrite leqnn ltnn; split=> // i; case: ltngtP.
move=> Hf le2; case: ifP => [/andP[ltn /eqP z]|].
  have [||/andP[le3 le4] Hz Hnz] := IH pv0.+1 => //.
    by rewrite subnS -subn1 leq_subLR add1n.
  split=> // [|i /andP[]]; first by rewrite (ltnW le3).
  rewrite leq_eqVlt => /orP[/eqP <- //|lt3 lt4].
  by apply: Hz; rewrite lt3.
move=> H; rewrite leqnn le2; split=> // [i|ltn]; first by case: ltngtP.
by move: H; rewrite ltn /= => /eqP.
Qed.

Section PivotStep.

Variables (n k m : nat).
Hypothesis Hn : n = k + m.+1.

Let lekn : k <= n. Proof. by rewrite Hn leq_addr. Qed.
Let ltkn : k < n. Proof. by rewrite Hn -addSnnS leq_addr. Qed.

(* the loop over i *)
Lemma elim_rows st1 :
  good st1 -> get (mat st1) k k <> 0%Z ->
  let st2 := for_range (n - k.+1) k.+1 (elim_row n k) st1 in
  [/\ good st2, det st2 = det st1,
      forall i j, i <= k -> get (mat st2) i j = get (mat st1) i j,
      forall i, k < i < n -> get (mat st2) i k = 0%Z
    & cong (\det (block k m.+1 (mat st2)))%R (\det (block k m.+1 (mat st1)))%R].
Proof.
move=> g1 akk /=.
pose I i t :=
  [/\ good t, det t = det st1,
      forall i' j, i' <= k -> get (mat t) i' j = get (mat st1) i' j,
      forall i', k < i' < i -> get (mat t) i' k = 0%Z
    & cong (\det (block k m.+1 (mat t)))%R (\det (block k m.+1 (mat st1)))%R].
suff: I (k.+1 + (n - k.+1)) (for_range (n - k.+1) k.+1 (elim_row n k) st1).
  by rewrite subnKC.
apply: for_range_inv => [|i t /andP[ki]].
  by split=> // i'; rewrite ltnS; case: ltngtP.
rewrite subnKC // => ltin [gt Hd Hrows Hz Hdet].
have akk' : get (mat t) k k <> 0%Z by rewrite Hrows.
have [gt' Hd' Hget] := elim_rowE lekn gt ki akk'.
have [Hm _ _] := gt.
split=> //.
- by rewrite Hd'.
- move=> i' j lei; rewrite Hget -Hrows //.
  by rewrite (ltn_eqF (leq_ltn_trans lei ki)).
- move=> i'; rewrite ltnS [i' <= i]leq_eqVlt => /andP[ki' /orP[/eqP ->|lti]].
    by rewrite Hget eqxx leqnn ltkn /=; apply: elim_zero.
  by rewrite Hget (ltn_eqF lti) /= Hz // ki'.
apply: cong_trans Hdet.
set T := block k m.+1 (mat t).
set f := ((_ * _) mod p)%Z in Hget.
have lt0 : i - k < m.+1 by rewrite ltn_subLR ?(ltnW ki) // -Hn.
pose i0 := Ordinal lt0.
have ne0 : i0 != ord0 by rewrite -val_eqE /= subn_eq0 -ltnNge.
rewrite -(det_add_row T (- f)%Z ne0); apply: det_cong => i' j'.
rewrite !mxE Hget leq_addr Hn ltn_add2l ltn_ord andbT.
have -> : (k + i' == i) = (i' == i0).
  by rewrite -val_eqE /= -[RHS](eqn_add2l k) subnKC // ltnW.
rewrite andbT; case: ifP => [_|_]; last exact: cong_refl.
rewrite /= addn0 subnKC ?(ltnW ki) //.
apply: cong_trans (cong_mod _) _; rewrite /cong !ZringE.
by congr (_ mod _)%Z; lia.
Qed.

End PivotStep.

Lemma swap_state k pv st :
  good st -> k <= pv ->
  let st1 := exchange k pv st in
  [/\ good st1,
      forall i j, get (mat st1) i j =
        get (mat st) (if i == pv then k else if i == k then pv else i) j
    & det st1 = if k == pv then det st else ((- det st) mod p)%Z].
Proof.
move=> [Hm Hd Ht] _ /=; rewrite /exchange; case: (k =P pv) => [<-|ne] /=.
  by split=> // i j; case: eqP => [->|].
split=> [|i j|]; rewrite ?neg_field ?get_swap_rows //.
split=> /= [i j||]; rewrite ?get_swap_rows ?mod_in_field //.
by rewrite all_rcons /= mod_in_field.
Qed.

Lemma block_swap n k m pv (A A1 : Matrix) (lt0 : pv - k < m.+1) :
  n = k + m.+1 -> k <= pv ->
  (forall i j, get A1 i j =
     get A (if i == pv then k else if i == k then pv else i) j) ->
  block k m.+1 A1 = xrow ord0 (Ordinal lt0) (block k m.+1 A).
Proof.
move=> Hn lek Hget; apply/matrixP => i j; rewrite !mxE Hget.
have Ei : (k + i == pv) = (i == Ordinal lt0).
  by rewrite -val_eqE /= -[RHS](eqn_add2l k) subnKC.
have E0 : (k + i == k) = (i == ord0).
  by rewrite -val_eqE /= -{2}[k]addn0 eqn_add2l.
case: tpermP => [->|->|/eqP/negPf ne0 /eqP/negPf nepv].
- by rewrite /= addn0 subnKC // eqxx; case: eqP => [->|].
- by rewrite /= subnKC // eqxx addn0.
- by rewrite Ei E0 ne0 nepv.
Qed.

Lemma block_first_col n k m (A : Matrix) :
  n = k + m.+1 ->
  (forall i, k < i < n -> get A i k = 0%Z) ->
  (\det (block k m.+1 A) = get A k k * \det (block k.+1 m A))%R.
Proof.
move=> Hn Hz.
have H (i : 'I_m) : (block k m.+1 A (rshift 1 i) 0 = 0)%R.
  rewrite mxE /= addn0; apply: Hz.
  by rewrite Hn add1n !addnS !ltnS leq_addr ltn_add2l ltn_ord.
rewrite (@det_first_col _ m (block k m.+1 A) H).
rewrite mxE /= addn0; congr (_ * \det _)%R.
by apply/matrixP => i j; rewrite !mxE /= !addnA addn1.
Qed.

Lemma pivot_stepP D0 n k st :
  k < n -> Inv D0 n k st ->
  match pivot_step n k st with
  | inl r => r.1 = (D0 mod p)%Z /\ good r.2
  | inr st' => Inv D0 n k.+1 st'
  end.
Proof.
move=> ltkn [gst HD]; pose m := n - k.+1.
have Hn : n = k + m.+1 by rewrite addnS -addSn subnKC.
move: HD; rewrite -(subnSK ltkn) -/m => HD.
rewrite /pivot_step.
have [] := @find_pivotP n (mat st) n k k (leq_subr _ _) (ltnW ltkn).
set pv := find_pivot _ _ _ _ _ => /andP[le1 le2] Hz Hnz.
case: eqP => [Epv|/eqP Npv].
  split=> //.
  have D0z : (\det (block k m.+1 (mat st)) = 0)%R.
    apply: (@det_zero_col _ _ _ ord0) => i; rewrite mxE addn0; apply: Hz.
    by rewrite leq_addr Epv Hn ltn_add2l ltn_ord.
  by move: HD; rewrite D0z mulr0 /cong Zmod_0_l => ->.
have ltpv : pv < n by rewrite ltn_neqAle Npv le2.
have [g1 Hget1 Hdet1] := swap_state gst le1.
set st1 := exchange k pv st in g1 Hget1 Hdet1 *.
have akk1 : get (mat st1) k k <> 0%Z.
  rewrite Hget1 eqxx.
  have -> : (if k == pv then k else pv) = pv by case: eqP.
  exact: Hnz.
have [g2 Hdet2 Hrows Hzero Hc] := elim_rows Hn g1 akk1.
set st2 := for_range _ _ _ _ in g2 Hdet2 Hrows Hzero Hc *.
split=> //; rewrite -/m.
have lt0 : pv - k < m.+1 by rewrite ltn_subLR // -Hn.
have Hb1 := block_swap lt0 Hn le1 Hget1.
have Hfirst := block_first_col Hn Hzero.
have Hprod : (\prod_(0 <= i < k) get (mat st2) i i
              = \prod_(0 <= i < k) get (mat st) i i)%R.
  apply: eq_big_nat => i /andP[_ ltik]; rewrite Hrows ?(ltnW ltik) // Hget1.
  by rewrite (ltn_eqF (leq_trans ltik le1)) (ltn_eqF ltik).
apply: cong_trans HD _; apply: cong_sym.
rewrite big_nat_recr //= Hprod Hdet2 -!mulrA -Hfirst.
apply: cong_trans (cong_mul (cong_refl _) (cong_mul (cong_refl _) Hc)) _.
rewrite Hb1 det_xrow Hdet1 -val_eqE /= [0 == _]eq_sym subn_eq0.
have -> : (pv <= k) = (k == pv) by rewrite eqn_leq le1.
case: eqP => _; first by rewrite mul1r; apply: cong_refl.
rewrite mulN1r !mulrN -mulNr; apply: cong_mul; last exact: cong_refl.
apply: (@cong_trans (- - det st)%Z); first exact/cong_opp/cong_mod.
by rewrite Z.opp_involutive; apply: cong_refl.
Qed.

(* the loop over the diagonal *)
Lemma diag_loop n st :
  good st ->
  let st' := for_range n 0 diag_step st in
  [/\ good st', mat st' = mat st
    & cong (det st') (det st * \prod_(0 <= i < n) get (mat st) i i)%R].
Proof.
move=> gst /=.
pose I i t := [/\ good t, mat t = mat st
    & cong (det t) (det st * \prod_(0 <= j < i) get (mat st) j j)%R].
suff: I (0 + n) (for_range n 0 diag_step st) by [].
apply: for_range_inv => [|i t _ [gt Hm Hc]].
  by split=> //; rewrite big_geq // mulr1; apply: cong_refl.
have [Hf Hd _] := gt.
rewrite /diag_step (mul_field Hd (Hf i i)); split=> //.
  by apply: good_set_det => //; apply: mod_in_field.
apply: cong_trans (cong_mod _) _.
rewrite big_nat_recr //= mulrA Hm.
by apply: cong_mul => //; apply: cong_refl.
Qed.

Lemma modularDeterminant_runP A :
  (forall i j, in_field (get A i j)) ->
  (modularDeterminant_run A).1 = (determinant (size A) A mod p)%Z /\
  good (modularDeterminant_run A).2.
Proof.
move=> redA; rewrite /modularDeterminant_run.
set n := size A; set D0 := determinant n A.
set st0 := set_det _ _.
have g0 : good st0 by split.
have Inv0 : Inv D0 n 0 st0.
  split=> //; rewrite big_geq // subn0 /= mulr1 mul1r; exact: cong_refl.
have := @for_loop_inv _ _ (Inv D0 n)
  (fun r => r.1 = (D0 mod p)%Z /\ good r.2) (pivot_step n) n 0 st0 Inv0.
case: (for_loop _ _ _ _) => [r|st] H.
  by apply: H => k t /andP[_ ltk]; apply: pivot_stepP.
have [] : Inv D0 n (0 + n) st.
  by apply: H => k t /andP[_ ltk]; apply: pivot_stepP.
rewrite add0n subnn det_mx00 mulr1 => gst HD.
have [g' Hm Hc] := diag_loop n gst.
have [_ Hd' _] := g'.
rewrite /= (add_p_field Hd'); split=> //.
by apply: cong_in_field => //; apply: cong_trans Hc (cong_sym HD).
Qed.

(* --- determinants that vanish --------------------------------------------- *)

Lemma determinantE n A : determinant n A = laplace n A.
Proof.
elim: n A => [|m IH] A; first by rewrite /determinant det_mx00.
rewrite /determinant (expand_det_col _ ord0) [RHS]/= sumZE big_mkord.
apply: eq_bigr => i _; rewrite mxE /= !add0n; congr (_ * _)%R.
rewrite /cofactor addn0 -signr_odd; congr (_ * _)%R; first by case: (odd i).
rewrite -IH /determinant; congr (\det _)%R.
by apply/matrixP => i' j'; rewrite !mxE /= !add0n /get !nth_mkseq.
Qed.

Lemma determinant_zero_row n A i :
  i < n -> (forall j, j < n -> get A i j = 0%Z) -> determinant n A = 0%Z.
Proof.
move=> lti Hz; rewrite /determinant (expand_det_row _ (Ordinal lti)).
by apply: big1 => j _; rewrite mxE /= !add0n Hz // mul0r.
Qed.

Lemma determinant_no_matching n graph A :
  ~ perfect_matching n graph ->
  (forall i j, get graph i j <> 1%Z -> get A i j = 0%Z) ->
  determinant n A = 0%Z.
Proof.
move=> Hno HA; apply: big1 => s _.
have [i Hi] : exists i : 'I_n, get graph i (s i) != 1%Z.
  apply/existsP; rewrite -negb_forall; apply/negP => /forallP H.
  by apply: Hno; exists s => i; apply/eqP.
by rewrite (bigD1 i) //= mxE !add0n HA ?mul0r ?mulr0 //; apply/eqP.
Qed.

(* --- the loops that fill A_prime ------------------------------------------- *)

Lemma size_put A i j v : i < size A -> size (put A i j v) = size A.
Proof. by move=> lti; rewrite /put size_set_nth; apply/maxn_idPr. Qed.

Lemma get_zeros n i j : get (nseq n (nseq n 0%Z)) i j = 0%Z.
Proof.
by rewrite /get nth_nseq; case: ifP => _; rewrite ?nth_nil // nth_nseq if_same.
Qed.

Lemma fill_loop n graph draws :
  square n graph -> (forall t, in_field (draws t)) ->
  exists2 s, for_loop n 0 (fun i => for_loop n 0 (fill_entry graph draws i))
                      (nseq n (nseq n 0%Z), 0) = inr s
    & [/\ size s.1 = n, forall i j, in_field (get s.1 i j)
        & forall i j, get graph i j <> 1%Z -> get s.1 i j = 0%Z].
Proof.
case/andP=> /eqP sz /allP rows Hdraws.
pose J (s : Matrix * nat) :=
  [/\ size s.1 = n, forall i j, in_field (get s.1 i j)
    & forall i j, get graph i j <> 1%Z -> get s.1 i j = 0%Z].
have J0 : J (nseq n (nseq n 0%Z), 0).
  by split=> [|i j|i j _] /=; rewrite ?size_nseq ?get_zeros.
have [i s /andP[_ lti] Js|s -> Js] :=
  @for_loop_ok fault _ (fun=> J)
     (fun i => for_loop n 0 (fill_entry graph draws i)) n 0 _ J0;
  last by exists s.
have [j [A t] /andP[_ ltj] [/= sA HA Hg]|s' -> Js'] :=
  @for_loop_ok fault _ (fun=> J) (fill_entry graph draws i) n 0 s Js;
  last by exists s'.
rewrite add0n in lti ltj.
have -> : j < size (nth [::] graph i).
  by rewrite (eqP (rows _ (mem_nth [::] _))) // sz.
case: eqP => [g1|g1]; eexists; try reflexivity.
  split=> /= [|i' j'|i' j' Hne]; first by rewrite size_put // sA.
    by rewrite get_put; case: ifP.
  rewrite get_put; case: andP => [[/eqP Ei /eqP Ej]|_]; last exact: Hg.
  by case: Hne; rewrite Ei Ej.
split=> /= [|i' j'|i' j' Hne]; first by rewrite size_put // sA.
  by rewrite get_put; case: ifP.
by rewrite get_put; case: ifP => // _; apply: Hg.
Qed.

(* --- the arguments of modInverse -------------------------------------------- *)

Definition nonzero_call (e : event) : bool :=
  if e is CallModInverse a then a != 0%Z else true.

Definition calls_ok (st : state) : bool := all nonzero_call (trace st).

Lemma elim_entries_calls cnt j0 k i f st :
  i != k -> calls_ok st ->
  let st' := for_range cnt j0 (elim_entry k i f) st in
  calls_ok st' /\ forall j, get (mat st') k j = get (mat st) k j.
Proof.
move=> ik ok /=.
pose I (j : nat) t := calls_ok t /\ forall j, get (mat t) k j = get (mat st) k j.
suff: I (j0 + cnt) (for_range cnt j0 (elim_entry k i f) st) by [].
apply: for_range_inv => [|j t _ [okt Hk]]; first by split.
split; first by rewrite /calls_ok /= all_rcons /=; exact: okt.
by move=> j'; rewrite /= get_put eq_sym (negPf ik) /=; exact: Hk.
Qed.

Lemma elim_row_calls n k i st :
  k < i -> get (mat st) k k <> 0%Z -> calls_ok st ->
  calls_ok (elim_row n k i st) /\
  forall j, get (mat (elim_row n k i st)) k j = get (mat st) k j.
Proof.
move=> ki akk ok; rewrite /elim_row /call_modInverse.
apply: elim_entries_calls; first by rewrite gtn_eqF.
by rewrite /calls_ok /= all_rcons /=; apply/andP; split; [apply/eqP | exact: ok].
Qed.

Lemma elim_rows_calls n k st1 :
  get (mat st1) k k <> 0%Z -> calls_ok st1 ->
  calls_ok (for_range (n - k.+1) k.+1 (elim_row n k) st1).
Proof.
move=> akk ok.
pose I (i : nat) t := calls_ok t /\ forall j, get (mat t) k j = get (mat st1) k j.
suff [] : I (k.+1 + (n - k.+1)) (for_range (n - k.+1) k.+1 (elim_row n k) st1).
  by [].
apply: for_range_inv => [|i t /andP[ki _] [okt Hk]]; first by split.
have akk' : get (mat t) k k <> 0%Z by rewrite Hk.
have [ok' Hk'] := @elim_row_calls n k i t ki akk' okt.
by split=> // j; rewrite Hk'.
Qed.

Lemma exchange_calls k pv st :
  calls_ok st ->
  calls_ok (exchange k pv st) /\
  get (mat (exchange k pv st)) k k = get (mat st) pv k.
Proof.
rewrite /exchange => ok; case: (k =P pv) => [<-|ne] //=.
rewrite /calls_ok /= all_rcons /= get_swap_rows eqxx; split; first exact: ok.
by case: eqP => [->|].
Qed.

Lemma pivot_step_calls n k st :
  k < n -> calls_ok st ->
  match pivot_step n k st with
  | inl r => calls_ok r.2
  | inr st' => calls_ok st'
  end.
Proof.
move=> ltkn ok; rewrite /pivot_step.
have [] := @find_pivotP n (mat st) n k k (leq_subr _ _) (ltnW ltkn).
set pv := find_pivot _ _ _ _ _ => /andP[le1 le2] _ Hnz.
case: eqP => [//|/eqP Npv].
have [ok1 Hkk] := exchange_calls k pv ok.
apply: elim_rows_calls => //; rewrite Hkk; apply: Hnz.
by rewrite ltn_neqAle Npv le2.
Qed.

Lemma run_calls A : calls_ok (modularDeterminant_run A).2.
Proof.
rewrite /modularDeterminant_run; set n := size A; set st0 := set_det _ _.
have ok0 : calls_ok st0 by [].
have := @for_loop_inv _ _ (fun=> calls_ok) (fun r => calls_ok r.2)
          (pivot_step n) n 0 st0 ok0.
case: (for_loop _ _ _ _) => [r|st] H.
  apply: H => k t /andP[_ ltk] okt.
  by have := pivot_step_calls ltk okt; case: (pivot_step n k t).
have ok : calls_ok st.
  apply: H => k t /andP[_ ltk] okt.
  by have := pivot_step_calls ltk okt; case: (pivot_step n k t).
pose I (i : nat) t := calls_ok t.
suff: I (0 + n) (for_range n 0 diag_step st) by [].
apply: (@for_range_inv _ I diag_step n 0 st) => [|i t _ okt]; first exact: ok.
by rewrite /I /calls_ok /= all_rcons /=; exact: okt.
Qed.

(* --- the claims ------------------------------------------------------------- *)

Lemma square_size n (M : Matrix) : square n M -> size M = n.
Proof. by case/andP=> /eqP. Qed.

Lemma modularDeterminant_mod n A :
  square n A -> reduced A ->
  modularDeterminant A = (determinant n A mod p)%Z.
Proof.
move=> /square_size sz redA; rewrite /modularDeterminant -sz.
by have [] := @modularDeterminant_runP A (fun i j => reduced_get i j redA).
Qed.

Lemma exchange_det k pivot st :
  in_field (det st) ->
  det (exchange k pivot st) =
    if k != pivot then ((p - det st) mod p)%Z else det st.
Proof.
move=> /in_fieldP Hd; rewrite /exchange; case: (k != pivot); last by [].
have -> v s : det (set_det v s) = v by [].
have Hp := p_range.
rewrite /ll_rem /ll_sub wrap64_small; try lia.
by rewrite Z.rem_mod_nonneg; lia.
Qed.

Definition identity3 : Matrix :=
  [:: [:: 1; 0; 0]; [:: 0; 1; 0]; [:: 0; 0; 1]]%Z.

(** C3: for every n x n matrix A with entries in [0, p-1],
    modularDeterminant A is the integer determinant of A reduced modulo p;
    in particular a matrix with a zero row yields 0 and the 3 x 3 identity
    matrix yields 1; a row exchange replaces the running determinant det by
    (p - det) mod p. *)
Theorem modularDeterminant_correct n A :
  square n A -> reduced A ->
  [/\ modularDeterminant A = (determinant n A mod p)%Z,
      forall i, i < n -> (forall j, j < n -> get A i j = 0%Z) ->
        modularDeterminant A = 0%Z,
      modularDeterminant identity3 = 1%Z
    & forall k pivot st, in_field (det st) ->
        det (exchange k pivot st) =
          if k != pivot then ((p - det st) mod p)%Z else det st].
Proof.
move=> sq red; split=> [|i lti Hz||k pivot st]; last exact: exchange_det.
- exact: modularDeterminant_mod.
- by rewrite (modularDeterminant_mod sq red) (determinant_zero_row lti Hz).
- by vm_compute.
Qed.

Definition A3 : Matrix := [:: [:: 2; 0; 1]; [:: 1; 3; 2]; [:: 1; 1; 4]]%Z.

Lemma modularDeterminant_correct_witness :
  [/\ square 3 A3, reduced A3,
      modularDeterminant A3 = (determinant 3 A3 mod p)%Z
    & determinant 3 A3 = 18%Z /\ modularDeterminant A3 = 18%Z].
Proof.
split; [by vm_compute | by vm_compute | | ].
  by have [] := @modularDeterminant_correct 3 A3 isT isT.
by rewrite determinantE; split; vm_compute.
Defined.

(* a row exchange: the determinant of ((0 1) (1 0)) is -1 *)
Example modularDeterminant_exchange :
  modularDeterminant [:: [:: 0; 1]; [:: 1; 0]]%Z = (p - 1)%Z.
Proof. by vm_compute. Qed.

(** C2: for every n x n adjacency matrix of a bipartite graph that has no
    perfect matching, hasPerfectMatching answers false whatever values of
    [1, p-1] the generator yields for the edge entries: there is no false
    positive. *)
Theorem hasPerfectMatching_no_false_positive n graph draws :
  square n graph ->
  (forall t, (1 <= draws t <= p - 1)%Z) ->
  ~ perfect_matching n graph ->
  hasPerfectMatching graph draws = Some false.
Proof.
move=> sq Hdraws Hno; have sz := square_size sq.
have n0 : n != 0.
  apply/eqP => n0; apply: Hno; rewrite n0; exists 1%g.
  by case.
have Hd t : in_field (draws t) by apply/in_fieldP; have := Hdraws t; lia.
rewrite /hasPerfectMatching sz (negPf n0).
have [[A' t'] -> /= [sA HA Hg]] := fill_loop sq Hd.
rewrite /modularDeterminant.
have [-> _] := modularDeterminant_runP HA.
by rewrite sA (determinant_no_matching Hno Hg).
Qed.

(* Case 2 of main(): U_0 and U_1 both reach V_1 only *)
Definition graph2 : seq (seq Z) := [:: [:: 0; 1; 0]; [:: 0; 1; 0]; [:: 1; 0; 1]]%Z.

Lemma graph2_no_matching : ~ perfect_matching 3 graph2.
Proof.
case=> s H.
have H0 := H ord0; have H1 := H (lift ord0 ord0).
have E0 : val (s ord0) = 1.
  by move: H0; case: (s ord0) => [[|[|[|?]]] ?].
have E1 : val (s (lift ord0 ord0)) = 1.
  by move: H1; case: (s (lift ord0 ord0)) => [[|[|[|?]]] ?].
have : s ord0 = s (lift ord0 ord0) by apply/val_inj; rewrite E0 E1.
by move/perm_inj.
Qed.

Lemma hasPerfectMatching_no_false_positive_witness :
  hasPerfectMatching graph2 (fun t => Z.of_nat t mod (p - 1) + 1)%Z
    = Some false.
Proof.
apply: (@hasPerfectMatching_no_false_positive 3) => //.
  move=> t; have := Z.mod_pos_bound (Z.of_nat t) (p - 1).
  by have := p_range; lia.
exact: graph2_no_matching.
Defined.

(** C6: during modularDeterminant every call of modInverse is made on a
    nonzero argument: whenever the factor A[i][k] * modInverse(A[k][k]) is
    computed the pivot entry A[k][k] is nonzero, a column without a nonzero
    pivot having made the routine return 0 before.  On a matrix with
    entries in [0, p-1] the argument is then a nonzero element a of the
    field and modInverse a is its inverse. *)
Theorem modInverse_never_called_on_zero n A :
  square n A ->
  all (fun e => if e is CallModInverse a then a != 0%Z else true)
      (trace (modularDeterminant_run A).2) /\
  (reduced A ->
   all (fun e => if e is CallModInverse a
                 then in_field a && ((a * modInverse a) mod p == 1)%Z
                 else true)
       (trace (modularDeterminant_run A).2)).
Proof.
move=> _; split=> [|red]; first exact: run_calls.
have [_ [_ _]] := @modularDeterminant_runP A (fun i j => reduced_get i j red).
apply: sub_all => -[a /andP[Ha /eqP a0]|i j v|v] //.
by rewrite Ha modInverse_mul.
Qed.

Lemma modInverse_never_called_on_zero_witness :
  [/\ square 3 A3,
      count (fun e => if e is CallModInverse _ then true else false)
            (trace (modularDeterminant_run A3).2) = 3
    & all (fun e => if e is CallModInverse a then a != 0%Z else true)
          (trace (modularDeterminant_run A3).2)].
Proof.
split; [by vm_compute | by vm_compute |].
by have [] := @modInverse_never_called_on_zero 3 A3 isT.
Defined.

(** C7: throughout modularDeterminant on a matrix with entries in
    [0, p-1], every entry stored during the elimination, every value given
    to the running determinant det and the returned result are in
    [0, p-1], as are the entries of the final matrix and the results of
    power. *)
Theorem values_stay_in_field n A :
  square n A -> reduced A ->
  let r := modularDeterminant_run A in
  [/\ in_field r.1,
      all (fun e => match e with
                    | StoreEntry _ _ v => in_field v
                    | SetDet v => in_field v
                    | CallModInverse _ => true
                    end) (trace r.2),
      forall i j, in_field (get (mat r.2) i j)
    & forall b e, in_field b -> (0 <= e)%Z -> in_field (power b e)].
Proof.
move=> sq red /=.
have [-> [Hm Hd Ht]] := @modularDeterminant_runP A (fun i j => reduced_get i j red).
split=> // [||b e Hb He]; first exact: mod_in_field.
  by apply: sub_all Ht => -[a /andP[]|i j v|v].
by rewrite powerE //; apply: mod_in_field.
Qed.

Lemma values_stay_in_field_witness :
  [/\ square 3 A3, reduced A3 & in_field (modularDeterminant_run A3).1].
Proof.
split; [by vm_compute | by vm_compute |].
by have [] := @values_stay_in_field 3 A3 isT isT.
Defined.

Lemma drawnS draws t :
  drawn draws t.+1 = rcons (drawn draws t) (Draw (draws t)).
Proof.
by rewrite /drawn -[t.+1]addn1 iotaD map_cat /= add0n cats1.
Qed.

(* the loops of hasPerfectMatching_run are those of hasPerfectMatching, the
   log holding the seeding and the values drawn so far *)
Lemma fill_run graph draws n A t :
  match for_loop n 0 (fun i => for_loop n 0 (fill_entry graph draws i)) (A, t),
        for_loop n 0 (fun i => for_loop n 0 (fill_entry_run graph draws i))
                 (A, t, drawn draws t) with
  | inl e1, inl e2 => e1 = e2
  | inr s', inr t' => t' = (s'.1, s'.2, drawn draws s'.2)
  | _, _ => False
  end.
Proof.
pose R (s : Matrix * nat) (x : Matrix * nat * seq effect) :=
  x = (s.1, s.2, drawn draws s.2).
apply: (@for_loop_sim _ _ _ R) => // i s1 x1 R1.
apply: (@for_loop_sim _ _ _ R) => // j [A' t'] x ->.
rewrite /fill_entry /fill_entry_run /=.
case: ifP => // _; case: ifP => // _.
by rewrite /R /= drawnS.
Qed.

(* the value hasPerfectMatching_run returns is that of hasPerfectMatching *)
Lemma hasPerfectMatching_run_value graph draws :
  omap fst (hasPerfectMatching_run graph draws) = hasPerfectMatching graph draws.
Proof.
rewrite /hasPerfectMatching_run /hasPerfectMatching.
case: eqP => // _.
have := fill_run graph draws (size graph)
          (nseq (size graph) (nseq (size graph) 0%Z)) 0.
rewrite -/(drawn draws 0).
case: (for_loop _ _ _ (_, 0)) => [e1|[A t]];
  case: (for_loop _ _ _ _) => [e2|[[A' t'] log]] //=.
by case=> -> _ _.
Qed.

(* on every other graph the effects take place *)
Lemma hasPerfectMatching_run_effects graph draws b :
  hasPerfectMatching_run graph draws = Some (b, [::]) -> graph = [::].
Proof.
rewrite /hasPerfectMatching_run; case: eqP => [/size0nil //|_].
case: (for_loop _ _ _ _) => [//|[[A t] log]] [_].
by case: log.
Qed.

(** C8: for the empty 0 x 0 adjacency matrix hasPerfectMatching returns
    true, whatever the generator would yield, and its log of effects is
    empty: the test n == 0 returns before a generator is seeded, so no
    random value is drawn, and modularDeterminant is not called. *)
Theorem empty_graph_has_matching draws :
  hasPerfectMatching_run [::] draws = Some (true, [::]) /\
  hasPerfectMatching [::] draws = Some true.
Proof. by []. Qed.

(** C10: modInverse 0 returns 0, because power 0 (p - 2) is 0: inverting
    zero yields the value 0 and no failure. *)
Theorem modInverse_zero :
  modInverse 0 = 0%Z /\ power 0 (p - 2) = 0%Z.
Proof. by split; vm_compute. Qed.

(* ---------------------------------------------------------------------- *)
(* Further properties of power, modInverse, hasPerfectMatching,           *)
(* modularDeterminant and main                                            *)
(* ---------------------------------------------------------------------- *)

(* --- power on every long long: the truncating remainder of base^exp ------- *)

Lemma small_rem z : small (Z.rem z p).
Proof.
have Hp := p_range; rewrite /small.
have [z0|z0] := Z_le_gt_dec 0 z.
  by have := Zrem_lt_pos_pos z p z0; lia.
by have := @Zrem_lt_neg_pos z p; lia.
Qed.

Lemma mul_small a b :
  small a -> small b -> ll_rem (ll_mul a b) p = Z.rem (a * b) p.
Proof.
rewrite /small => Ha Hb; have Hp := p_range.
rewrite /ll_rem /ll_mul wrap64_small //.
have : (Z.abs (a * b) < 2 ^ 62)%Z.
  rewrite Z.abs_mul; have -> : (2 ^ 62 = 2 ^ 31 * 2 ^ 31)%Z by [].
  by apply: Z.mul_lt_mono_nonneg; lia.
lia.
Qed.

Lemma rem_pow_idemp x e :
  (0 <= e)%Z -> Z.rem (Z.rem x p ^ e) p = Z.rem (x ^ e) p.
Proof.
move: e; apply: natlike_ind => [//|e He IH].
rewrite !Z.pow_succ_r // -Zmult_rem_idemp_r IH Zmult_rem_idemp_r.
by rewrite Zmult_rem_idemp_l.
Qed.

Lemma power_loop_rem e res base :
  small res -> small base ->
  power_loop res base e = Z.rem (res * base ^ Zpos e) p.
Proof.
elim: e res base => [e IH|e IH|] res base Hr Hb; rewrite [LHS]/=.
- rewrite !mul_small // IH; try exact: small_rem.
  rewrite Pos2Z.inj_xI Z.pow_add_r // Z.pow_1_r Z.pow_mul_r //.
  rewrite Z.pow_2_r Zmult_rem_idemp_l -Zmult_rem_idemp_r rem_pow_idemp //.
  by rewrite Zmult_rem_idemp_r; congr (Z.rem _ _); lia.
- rewrite !mul_small // IH //; try exact: small_rem.
  rewrite Pos2Z.inj_xO Z.pow_mul_r // Z.pow_2_r.
  by rewrite -Zmult_rem_idemp_r rem_pow_idemp // Zmult_rem_idemp_r.
- by rewrite mul_small // Z.pow_1_r.
Qed.

Lemma power_rem b e : (0 <= e)%Z -> power b e = Z.rem (b ^ e) p.
Proof.
have Hp := p_range.
case: e => [|e|e] He; rewrite /power.
- by rewrite Z.pow_0_r Z.rem_small; lia.
- have s1 : small 1 by rewrite /small; lia.
  by rewrite /ll_rem (power_loop_rem e s1 (small_rem b)) Z.mul_1_l rem_pow_idemp.
- by case: He.
Qed.

Lemma power_nonneg b e :
  (0 <= b)%Z -> (0 <= e)%Z -> power b e = (b ^ e mod p)%Z.
Proof.
move=> Hb He; have Hp := p_range.
by rewrite power_rem // Z.rem_mod_nonneg //; try lia; exact: Z.pow_nonneg.
Qed.

Lemma modInverse_nonneg a :
  (0 <= a)%Z -> modInverse a = (a ^ (p - 2) mod p)%Z.
Proof.
move=> Ha; have Hp := p_range.
by rewrite /modInverse /ll_sub wrap64_small ?power_nonneg //; lia.
Qed.

Lemma fermat_mod a :
  (a mod p <> 0)%Z -> ((a * a ^ (p - 2)) mod p = 1)%Z.
Proof.
move=> Ha; have Hp := p_range.
have Hr := Z.mod_pos_bound a p.
rewrite -Z.mul_mod_idemp_l; try lia.
rewrite -Z.mul_mod_idemp_r; try lia.
rewrite -Z.mod_pow_l Z.mul_mod_idemp_r; try lia.
by apply: fermat_p; lia.
Qed.

Lemma modInverse_inv a :
  (0 <= a)%Z -> (a mod p <> 0)%Z ->
  (0 < modInverse a < p)%Z /\ ((a * modInverse a) mod p = 1)%Z.
Proof.
move=> Ha Hm; have Hp := p_range.
have H1 : ((a * modInverse a) mod p = 1)%Z.
  rewrite modInverse_nonneg // Z.mul_mod_idemp_r; try lia.
  exact: fermat_mod.
split=> //; have := Z.mod_pos_bound (a ^ (p - 2)) p.
rewrite -modInverse_nonneg // => Hb.
suff: modInverse a <> 0%Z by lia.
by move=> H0; move: H1; rewrite H0 Z.mul_0_r Zmod_0_l.
Qed.

Lemma modInverse_multiple a :
  (0 <= a)%Z -> (a mod p = 0)%Z -> modInverse a = 0%Z.
Proof.
move=> Ha Hm; have Hp := p_range.
rewrite modInverse_nonneg // -Z.mod_pow_l Hm Z.pow_0_l ?Zmod_0_l //; lia.
Qed.

(** X12: power base exp is the C++ remainder of base^exp by p for every
    exp >= 0, whatever the sign of base, and 1 for every exp < 0. *)
Theorem power_is_truncated_power b e :
  power b e = if (0 <=? e)%Z then Z.rem (b ^ e) p else 1%Z.
Proof.
case: Z.leb_spec0 => He; first exact: power_rem.
by case: e He => [|e|e] //; lia.
Qed.

(** X13: for base >= 0 the exponents add and multiply: power b (e1 + e2) is
    the product of power b e1 and power b e2 modulo p, and
    power (power b e1) e2 is power b (e1 * e2). *)
Theorem power_exponent_laws b e1 e2 :
  (0 <= b)%Z -> (0 <= e1)%Z -> (0 <= e2)%Z ->
  power b (e1 + e2) = ((power b e1 * power b e2) mod p)%Z /\
  power (power b e1) e2 = power b (e1 * e2).
Proof.
move=> Hb H1 H2; have Hp := p_range.
have Hm := Z.mod_pos_bound (b ^ e1) p.
rewrite !power_nonneg //; try lia.
by rewrite Z.pow_add_r // -Zmult_mod Z.mod_pow_l Z.pow_mul_r.
Qed.

Lemma power_exponent_laws_witness :
  power 3 (4 + 5) = ((power 3 4 * power 3 5) mod p)%Z /\
  power (power 3 4) 5 = power 3 (4 * 5).
Proof. by apply: power_exponent_laws. Defined.

(** X14: Fermat's little theorem as the code computes it: power a (p - 1) is
    1 for every a >= 0 that is not a multiple of p. *)
Theorem power_fermat a :
  (0 <= a)%Z -> (a mod p <> 0)%Z -> power a (p - 1) = 1%Z.
Proof.
move=> Ha Hm; have Hp := p_range.
rewrite power_nonneg //; try lia.
have -> : (p - 1 = Z.succ (p - 2))%Z by lia.
rewrite Z.pow_succ_r; try lia.
exact: fermat_mod.
Qed.

Lemma power_fermat_witness : power 123456789 (p - 1) = 1%Z.
Proof. by apply: power_fermat. Defined.

(** X15: for every a >= 0 that is not a multiple of p, modInverse a is the
    inverse of a in the field: it lies in [1, p-1] and a * modInverse a is
    1 modulo p. *)
Theorem modInverse_is_inverse a :
  (0 <= a)%Z -> (a mod p <> 0)%Z ->
  (0 < modInverse a < p)%Z /\ ((a * modInverse a) mod p = 1)%Z.
Proof. exact: modInverse_inv. Qed.

Lemma modInverse_is_inverse_witness :
  (0 < modInverse 2 < p)%Z /\ ((2 * modInverse 2) mod p = 1)%Z.
Proof. by apply: modInverse_is_inverse. Defined.

(** X16: for a >= 0, modInverse a is 0 exactly when a is a multiple of p
    (0, p, 2p, ...): the integer test `== 0` of the pivot search does not
    see the multiples of p other than 0. *)
Theorem modInverse_zero_iff a :
  (0 <= a)%Z -> (modInverse a = 0%Z <-> (a mod p = 0)%Z).
Proof.
move=> Ha; have Hp := p_range; split=> [H0|Hm].
  have [//|Hm] := Z.eq_dec (a mod p) 0.
  by have [] := modInverse_inv Ha Hm; lia.
exact: modInverse_multiple.
Qed.

Lemma modInverse_zero_iff_witness :
  modInverse p = 0%Z <-> (p mod p = 0)%Z.
Proof. by apply: modInverse_zero_iff. Defined.

(** X17: inverting twice gives the argument back, reduced modulo p:
    modInverse (modInverse a) = a mod p for every a >= 0; on [0, p-1]
    modInverse is an involution. *)
Theorem modInverse_involutive a :
  (0 <= a)%Z -> modInverse (modInverse a) = (a mod p)%Z.
Proof.
move=> Ha; have Hp := p_range.
have [Hm|Hm] := Z.eq_dec (a mod p) 0.
  by rewrite (modInverse_multiple Ha Hm) Hm; exact: modInverse0.
have [[Hi1 Hi2] Hi] := modInverse_inv Ha Hm.
have Hm' : (modInverse a mod p <> 0)%Z by rewrite Z.mod_small; lia.
have Hi0 : (0 <= modInverse a)%Z by lia.
have [[Hj1 Hj2] Hj] := modInverse_inv Hi0 Hm'.
set b := modInverse a in Hi1 Hi2 Hi Hm' Hj1 Hj2 Hj *.
set c := modInverse b in Hj1 Hj2 Hj *.
have -> : c = ((c * (a * b)) mod p)%Z.
  by rewrite -Z.mul_mod_idemp_r ?Hi ?Z.mul_1_r ?Z.mod_small; lia.
have -> : (c * (a * b) = a * (b * c))%Z by lia.
by rewrite -Z.mul_mod_idemp_r ?Hj ?Z.mul_1_r; lia.
Qed.

Lemma modInverse_involutive_witness :
  modInverse (modInverse 5) = (5 mod p)%Z.
Proof. by apply: modInverse_involutive. Defined.

(** X18: modInverse is multiplicative on the field: for a, b in [0, p-1],
    modInverse ((a * b) mod p) = (modInverse a * modInverse b) mod p. *)
Theorem modInverse_multiplicative a b :
  in_field a -> in_field b ->
  modInverse ((a * b) mod p) = ((modInverse a * modInverse b) mod p)%Z.
Proof.
move=> /in_fieldP Ha /in_fieldP Hb; have Hp := p_range.
have Hm := Z.mod_pos_bound (a * b) p.
rewrite !modInverse_nonneg; try lia.
by rewrite Z.mod_pow_l Z.pow_mul_l -Zmult_mod.
Qed.

Lemma modInverse_multiplicative_witness :
  modInverse ((6 * 7) mod p) = ((modInverse 6 * modInverse 7) mod p)%Z.
Proof. by apply: modInverse_multiplicative. Defined.

Lemma square_put n A i j v :
  square n A -> i < n -> j < n -> square n (put A i j v).
Proof.
case/andP=> /eqP sz /allP rows lti ltj.
have rowi i' : i' < n -> size (nth [::] A i') = n.
  by move=> lt; apply/eqP/rows/mem_nth; rewrite sz.
apply/andP; split; first by rewrite size_put ?sz.
apply/(all_nthP [::]) => i'; rewrite size_put ?sz // => lti'.
rewrite /put nth_set_nth /=; case: (i' =P i) => [_|_]; last by rewrite rowi.
by rewrite size_set_nth rowi //; apply/eqP/maxn_idPr.
Qed.

Lemma square_ext n A B :
  square n A -> square n B ->
  (forall i j, i < n -> j < n -> get A i j = get B i j) -> A = B.
Proof.
case/andP=> /eqP sA /allP rA /andP[/eqP sB /allP rB] H.
apply: (@eq_from_nth _ [::]); rewrite sA ?sB // => i lti.
have si : size (nth [::] A i) = n by apply/eqP/rA/mem_nth; rewrite sA.
apply: (@eq_from_nth _ 0%Z) => [|j]; rewrite si; last exact: H.
by apply/esym/eqP/rB/mem_nth; rewrite sB.
Qed.

Lemma square_mkseq n (f : nat -> nat -> Z) :
  square n (mkseq (fun i => mkseq (f i) n) n).
Proof.
rewrite /square size_mkseq eqxx /=; apply/allP => row /mapP[i _ ->].
by rewrite size_mkseq.
Qed.

Lemma get_mkseq n (f : nat -> nat -> Z) i j :
  get (mkseq (fun i => mkseq (f i) n) n) i j =
  if (i < n) && (j < n) then f i j else 0%Z.
Proof.
rewrite /get; case: (ltnP i n) => [lti|gei] /=; last first.
  by rewrite (@nth_default _ [::]) ?size_mkseq // nth_nil.
rewrite nth_mkseq //; case: (ltnP j n) => [ltj|gej]; first by rewrite nth_mkseq.
by rewrite nth_default ?size_mkseq.
Qed.

Lemma row_edgesS graph i j :
  row_edges graph i j.+1 = row_edges graph i j + (get graph i j == 1%Z).
Proof. by rewrite /row_edges -addn1 iotaD count_cat /= add0n addn0. Qed.

Lemma edge_rankS graph n i j :
  edge_rank graph n i j.+1 = edge_rank graph n i j + (get graph i j == 1%Z).
Proof. by rewrite /edge_rank row_edgesS addnA. Qed.

Lemma edge_rank_row graph n i :
  edge_rank graph n i n = edge_rank graph n i.+1 0.
Proof.
rewrite /edge_rank; have -> : row_edges graph i.+1 0 = 0 by [].
by rewrite -[i.+1]addn1 iotaD map_cat sumn_cat /= add0n !addn0.
Qed.

Section Fill.

Variables (graph : Matrix) (draws : nat -> Z).
Let n := size graph.
Hypothesis rows : all (fun row => n <= size row) graph.

Let entry i j : Z :=
  if get graph i j == 1%Z then draws (edge_rank graph n i j) else 0%Z.

(* the state when the loops reach entry (i, j) *)
Let reached (i j : nat) (s : Matrix * nat) : Prop :=
  [/\ square n s.1, s.2 = edge_rank graph n i j
    & forall i' j', i' < n -> j' < n ->
        get s.1 i' j' =
        if (i' < i) || ((i' == i) && (j' < j)) then entry i' j' else 0%Z].

Lemma fill_row i s :
  i < n -> reached i 0 s ->
  exists2 s', for_loop n 0 (fill_entry graph draws i) s = inr s'
            & reached i.+1 0 s'.
Proof.
move=> lti Hs.
have step j t : 0 <= j < 0 + n -> reached i j t ->
    exists2 t', fill_entry graph draws i j t = inr t' & reached i j.+1 t'.
  case: t => A t /andP[_ ltj] [/= sq Et HA]; rewrite add0n in ltj.
  have -> : j < size (nth [::] graph i).
    by apply: leq_trans ltj _; move/allP: rows; apply; apply: mem_nth.
  exists (put A i j (entry i j), t + (get graph i j == 1%Z)).
    by rewrite /entry Et; case: eqP => _; rewrite ?addn1 ?addn0.
  split=> /= [||i' j' lti' ltj']; first exact: square_put.
    by rewrite edge_rankS Et.
  rewrite get_put HA // ltnS [j' <= j]leq_eqVlt.
  by case: (ltngtP i' i) => //= Ei; rewrite ?Ei; case: (j' =P j) => [->|_].
have [s' -> [sq Et HA]] := for_loop_ok Hs step.
exists s' => //; split=> // [|i' j' lti' ltj'].
  by rewrite Et add0n edge_rank_row.
by rewrite HA // add0n ltj' andbT ltn0 andbF orbF ltnS [i' <= i]leq_eqVlt orbC.
Qed.

Lemma fill_all :
  for_loop n 0 (fun i => for_loop n 0 (fill_entry graph draws i))
           (nseq n (nseq n 0%Z), 0)
  = inr (edmonds n graph draws, edge_rank graph n n 0).
Proof.
have H0 : reached 0 0 (nseq n (nseq n 0%Z), 0).
  split=> [||i' j' _ _] //; last by rewrite get_zeros ltn0 andbF.
  rewrite /square size_nseq eqxx /=; apply/allP => row /nseqP[-> _].
  by rewrite size_nseq.
have step i s : 0 <= i < 0 + n -> reached i 0 s ->
    exists2 s', for_loop n 0 (fill_entry graph draws i) s = inr s'
              & reached i.+1 0 s'.
  by rewrite add0n => /andP[_ lti]; apply: fill_row.
have [[A t] -> [/= sq Et HA]] :=
  @for_loop_ok fault _ (fun i => reached i 0) _ n 0 _ H0 step.
congr (inr (_, _)); last by rewrite Et.
apply: (square_ext sq (square_mkseq _ _)) => i j lti ltj.
by rewrite HA // get_mkseq add0n lti ltj.
Qed.

End Fill.

Lemma reduced_edmonds n graph draws :
  (forall t, in_field (draws t)) -> reduced (edmonds n graph draws).
Proof.
move=> Hd; apply/allP => row /mapP[i _ ->]; apply/allP => x /mapP[j _ ->].
by case: ifP.
Qed.

Lemma get_edmonds n graph draws (i j : 'I_n) :
  get (edmonds n graph draws) i j =
  if get graph i j == 1%Z then draws (edge_rank graph n i j) else 0%Z.
Proof. by rewrite get_mkseq !ltn_ord. Qed.

Lemma square_rows n graph :
  square n graph -> all (fun row => size graph <= size row) graph.
Proof.
case/andP=> /eqP -> /allP rows; apply/allP => row /rows /eqP ->.
exact: leqnn.
Qed.

Lemma draws_in_field (draws : nat -> Z) :
  (forall t, (1 <= draws t <= p - 1)%Z) -> forall t, in_field (draws t).
Proof. by move=> H t; apply/in_fieldP; have := H t; lia. Qed.

(* what hasPerfectMatching returns on a square graph *)
Lemma hasPerfectMatchingE n graph draws :
  square n graph -> (forall t, in_field (draws t)) ->
  hasPerfectMatching graph draws =
  Some ((determinant n (edmonds n graph draws) mod p)%Z != 0%Z).
Proof.
move=> sq Hd; have sz := square_size sq; rewrite /hasPerfectMatching sz.
case: eqP => [n0|_].
  by rewrite n0 /determinant det_mx00.
rewrite -{1 2 3 4}sz (fill_all draws (square_rows sq)) sz.
by rewrite (modularDeterminant_mod (square_mkseq _ _) (reduced_edmonds _ _ Hd)).
Qed.

(* on an n x n graph, n >= 1: the generator is seeded, one value is drawn
   for every edge, and modularDeterminant is called once, on the matrix
   that holds the drawn values *)
Lemma hasPerfectMatching_run_log n graph draws :
  0 < n -> square n graph ->
  hasPerfectMatching_run graph draws =
  Some (modularDeterminant (edmonds n graph draws) != 0%Z,
        rcons (drawn draws (edge_rank graph n n 0))
              (CallModularDeterminant (edmonds n graph draws))).
Proof.
move=> n0 sq; have sz := square_size sq; move: n0 sq; rewrite -sz => n0 sq.
rewrite /hasPerfectMatching_run -[_ == 0]negbK -lt0n n0 /=.
have := fill_run graph draws (size graph)
          (nseq (size graph) (nseq (size graph) 0%Z)) 0.
rewrite (fill_all draws (square_rows sq)) -/(drawn draws 0).
by case: (for_loop _ _ _ _) => [//|x ->].
Qed.

Lemma fill_short graph draws :
  (exists2 i, i < size graph & size (nth [::] graph i) < size graph) ->
  for_loop (size graph) 0
    (fun i => for_loop (size graph) 0 (fill_entry graph draws i))
    (nseq (size graph) (nseq (size graph) 0%Z), 0) = inl OutOfBounds.
Proof.
set n := size graph; case=> i0 lti short.
have row_fails s : for_loop n 0 (fill_entry graph draws i0) s = inl OutOfBounds.
  pose I j (t : Matrix * nat) := j <= size (nth [::] graph i0).
  have := @for_loop_inv fault _ I (fun=> True) (fill_entry graph draws i0) n 0 s.
  case: (for_loop _ _ _ _) => [[]|t] // H.
  suff: I (0 + n) t by rewrite /I add0n leqNgt short.
  apply: H => // j [A t'] _; rewrite /I /fill_entry leq_eqVlt.
  by case/orP=> [/eqP ->|->]; [rewrite ltnn | case: ifP].
pose I i (t : Matrix * nat) := i <= i0.
set body := fun i => _.
have := @for_loop_inv fault _ I (fun=> True) body n 0 (nseq n (nseq n 0%Z), 0).
case: (for_loop _ _ _ _) => [[]|t] // H.
suff: I (0 + n) t by rewrite /I add0n leqNgt lti.
apply: H => // i t' _; rewrite /I /body leq_eqVlt => /orP[/eqP ->|] //.
  by rewrite row_fails.
by case: (for_loop _ _ _ _).
Qed.

Lemma mul_nonzero a b :
  (a mod p <> 0)%Z -> (b mod p <> 0)%Z -> ((a * b) mod p <> 0)%Z.
Proof.
move=> Ha Hb Hab; apply: Hb; have Hp := p_range.
have := fermat_mod Ha; set x := (a ^ _)%Z => H.
have E : (b mod p = (a * b * x) mod p)%Z.
  have -> : (a * b * x = b * (a * x))%Z by lia.
  rewrite -Z.mul_mod_idemp_r; try lia.
  by rewrite H Z.mul_1_r.
rewrite E -Z.mul_mod_idemp_l; try lia.
by rewrite Hab.
Qed.

Lemma prod_nonzero (I : finType) (F : I -> Z) :
  (forall i, (F i mod p <> 0)%Z) -> ((\prod_i F i)%R mod p <> 0)%Z.
Proof.
move=> H; elim/big_ind: _ => [|x y Hx Hy|i _].
- by have Hp := p_range; rewrite Z1E Z.mod_1_l; lia.
- exact: mul_nonzero.
exact: H.
Qed.

(** X19: on an n x n graph hasPerfectMatching computes, modulo p, the
    determinant of the matrix that holds the k-th drawn value at the k-th
    edge in row-major order and 0 elsewhere, and answers whether it is
    not 0. *)
Theorem hasPerfectMatching_edmonds n graph draws :
  square n graph ->
  (forall t, (1 <= draws t <= p - 1)%Z) ->
  hasPerfectMatching graph draws =
  Some (modularDeterminant (edmonds n graph draws) != 0%Z) /\
  modularDeterminant (edmonds n graph draws) =
  (determinant n (edmonds n graph draws) mod p)%Z.
Proof.
move=> sq /draws_in_field Hd.
rewrite (modularDeterminant_mod (square_mkseq _ _) (reduced_edmonds _ _ Hd)).
by rewrite (hasPerfectMatchingE sq Hd).
Qed.

(** X20: hasPerfectMatching stays inside its vectors exactly when every row
    of the graph has at least as many entries as the graph has rows. *)
Theorem hasPerfectMatching_in_bounds graph draws :
  isSome (hasPerfectMatching graph draws) =
  all (fun row => size graph <= size row) graph.
Proof.
rewrite /hasPerfectMatching.
case: (boolP (all _ graph)) => [rows|].
  by case: eqP => // _; rewrite (fill_all draws rows).
case: eqP => [/size0nil -> //|_].
case/allPn=> row /(nthP [::])[i lti <-]; rewrite -ltnNge => short.
by rewrite fill_short //; exists i.
Qed.

Lemma unique_matching_true n graph draws (s : 'S_n) :
  square n graph ->
  (forall t, (1 <= draws t <= p - 1)%Z) ->
  (forall i : 'I_n, get graph i (s i) = 1%Z) ->
  (forall s' : 'S_n, (forall i : 'I_n, get graph i (s' i) = 1%Z) -> s' = s) ->
  hasPerfectMatching graph draws = Some true.
Proof.
move=> sq Hdraws Hs Huniq; have Hd := draws_in_field Hdraws.
rewrite (hasPerfectMatchingE sq Hd); congr Some; apply/eqP.
have -> : determinant n (edmonds n graph draws) =
    ((-1) ^+ s * \prod_(i < n) draws (edge_rank graph n i (s i)))%R.
  rewrite /determinant /matrix.determinant (bigD1 s) //=.
  rewrite [X in (_ + X)%R]big1 => [s' ne|].
    have [i Hi] : exists i : 'I_n, get graph i (s' i) != 1%Z.
      apply/existsP; rewrite -negb_forall; apply/negP => /forallP H.
      by case/eqP: ne; apply: Huniq => i; apply/eqP.
    by rewrite (bigD1 i) //= mxE !add0n get_edmonds (negPf Hi) mul0r mulr0.
  rewrite addr0; congr (_ * _)%R; apply: eq_bigr => i _.
  by rewrite mxE !add0n get_edmonds Hs eqxx.
apply: mul_nonzero.
  by case: (odd_perm s); rewrite ?expr1 ?expr0.
apply: prod_nonzero => i; have Hp := p_range.
by rewrite Z.mod_small; have := Hdraws (edge_rank graph n i (s i)); lia.
Qed.

(** X21: if the n x n graph has exactly one perfect matching, hasPerfectMatching
    answers true whatever values of [1, p-1] are drawn. *)
Theorem unique_matching_always_found n graph draws (s : 'S_n) :
  square n graph ->
  (forall t, (1 <= draws t <= p - 1)%Z) ->
  (forall i : 'I_n, get graph i (s i) = 1%Z) ->
  (forall s' : 'S_n, (forall i : 'I_n, get graph i (s' i) = 1%Z) -> s' = s) ->
  hasPerfectMatching graph draws = Some true.
Proof. exact: unique_matching_true. Qed.

(** X22: if two rows of the n x n graph have their edges in the same columns
    and the values drawn for the two rows agree column by column, as with a
    generator that repeats one value, hasPerfectMatching answers false,
    also when the graph has a perfect matching. *)
Theorem equal_rows_answer_false n graph draws i1 i2 :
  square n graph ->
  (forall t, (1 <= draws t <= p - 1)%Z) ->
  i1 < i2 < n ->
  (forall j, j < n -> (get graph i1 j == 1%Z) = (get graph i2 j == 1%Z)) ->
  (forall j, j < n -> get graph i1 j = 1%Z ->
     draws (edge_rank graph n i1 j) = draws (edge_rank graph n i2 j)) ->
  hasPerfectMatching graph draws = Some false.
Proof.
move=> sq /draws_in_field Hd /andP[lt12 lt2] Hrows Hvals.
rewrite (hasPerfectMatchingE sq Hd); congr Some; apply/negbTE; rewrite negbK.
have lt1 : i1 < n := ltn_trans lt12 lt2.
have ne : Ordinal lt1 != Ordinal lt2 by rewrite -val_eqE /= ltn_eqF.
rewrite /determinant (determinant_alternate ne) // => j.
rewrite !mxE !add0n !get_edmonds /= -Hrows //.
by case: eqP => // /Hvals ->.
Qed.

Definition cycle_draws (t : nat) : Z := (Z.of_nat t mod (p - 1) + 1)%Z.

Lemma cycle_draws_range t : (1 <= cycle_draws t <= p - 1)%Z.
Proof.
have := Z.mod_pos_bound (Z.of_nat t) (p - 1).
by rewrite /cycle_draws; have := p_range; lia.
Qed.

(* Case 1 of main(): the only perfect matching is U_0-V_0, U_1-V_2, U_2-V_1 *)
Definition graph1 : seq (seq Z) := [:: [:: 1; 1; 0]; [:: 0; 0; 1]; [:: 0; 1; 1]]%Z.

Definition i3_0 : 'I_3 := Ordinal (isT : 0 < 3).
Definition i3_1 : 'I_3 := Ordinal (isT : 1 < 3).
Definition i3_2 : 'I_3 := Ordinal (isT : 2 < 3).

Definition matching1 : 'S_3 := tperm i3_1 i3_2.

Lemma matching1_edges (i : 'I_3) : get graph1 i (matching1 i) = 1%Z.
Proof.
by case: i => [[|[|[|?]]] lt] //; rewrite /matching1 permE /=.
Qed.

Lemma matching1_unique (s' : 'S_3) :
  (forall i : 'I_3, get graph1 i (s' i) = 1%Z) -> s' = matching1.
Proof.
move=> H.
pose i0 := i3_0; pose i1 := i3_1; pose i2 := i3_2.
have E1 : s' i1 = i2.
  by apply/val_inj; move: (H i1); case: (s' i1) => [[|[|[|?]]] ?].
have E2 : s' i2 = i1.
  have : s' i2 != s' i1 by rewrite (inj_eq perm_inj).
  rewrite E1 => ne; apply/val_inj; move: (H i2) ne.
  by case: (s' i2) => [[|[|[|?]]] ?].
have E0 : s' i0 = i0.
  have : s' i0 != s' i2 by rewrite (inj_eq perm_inj).
  rewrite E2 => ne; apply/val_inj; move: (H i0) ne.
  by case: (s' i0) => [[|[|[|?]]] ?].
apply/permP => i; have [-> | -> | ->] : [\/ i = i0, i = i1 | i = i2].
- by case: i => [[|[|[|?]]] lt] //; [constructor 1 | constructor 2 | constructor 3];
    apply/val_inj.
- by rewrite E0 /matching1 permE.
- by rewrite E1 /matching1 permE.
by rewrite E2 /matching1 permE.
Qed.

Lemma hasPerfectMatching_edmonds_witness :
  hasPerfectMatching graph1 cycle_draws =
  Some (modularDeterminant (edmonds 3 graph1 cycle_draws) != 0%Z) /\
  modularDeterminant (edmonds 3 graph1 cycle_draws) =
  (determinant 3 (edmonds 3 graph1 cycle_draws) mod p)%Z.
Proof.
by apply: (@hasPerfectMatching_edmonds 3) => //; apply: cycle_draws_range.
Defined.

Lemma unique_matching_always_found_witness :
  hasPerfectMatching graph1 cycle_draws = Some true.
Proof.
apply: (@unique_matching_always_found 3 graph1 cycle_draws matching1) => //.
- exact: cycle_draws_range.
- exact: matching1_edges.
exact: matching1_unique.
Defined.

(* the complete bipartite graph on 2 + 2 vertices *)
Definition K2 : seq (seq Z) := [:: [:: 1; 1]; [:: 1; 1]]%Z.

Lemma K2_matching : perfect_matching 2 K2.
Proof. by exists 1%g => i; rewrite perm1; case: i => [[|[|?]] lt]. Qed.

Lemma equal_rows_answer_false_witness :
  perfect_matching 2 K2 /\ hasPerfectMatching K2 (fun=> 5%Z) = Some false.
Proof.
split; first exact: K2_matching.
by apply: (@equal_rows_answer_false 2 K2 (fun=> 5%Z) 0 1) => // [] [|[|j]].
Defined.

(* --- how often modularDeterminant calls modInverse --------------------------- *)












(* --- the matrix modularDeterminant leaves behind ------------------------------ *)

Lemma elim_rows_left n k st1 :
  k < n -> good st1 -> get (mat st1) k k <> 0%Z ->
  let st2 := for_range (n - k.+1) k.+1 (elim_row n k) st1 in
  forall i j, j < k -> get (mat st2) i j = get (mat st1) i j.
Proof.
move=> ltkn g1 akk /=.
pose I (i : nat) t :=
  [/\ good t, get (mat t) k k = get (mat st1) k k
    & forall i' j, j < k -> get (mat t) i' j = get (mat st1) i' j].
suff [] : I (k.+1 + (n - k.+1)) (for_range (n - k.+1) k.+1 (elim_row n k) st1).
  by [].
apply: for_range_inv => [|i t /andP[ki _] [gt Hkk Hleft]]; first by split.
have akk' : get (mat t) k k <> 0%Z by rewrite Hkk.
have [gt' _ Hget] := elim_rowE (ltnW ltkn) gt ki akk'.
split=> // [|i' j ltj].
  by rewrite Hget (ltn_eqF ki).
by rewrite Hget [k <= j]leqNgt ltj /= andbF Hleft.
Qed.

Lemma pivot_step_echelon n k st :
  k < n -> good st -> echelon n k (mat st) ->
  match pivot_step n k st with
  | inl r => r.1 = 0%Z
  | inr st' => good st' /\ echelon n k.+1 (mat st')
  end.
Proof.
move=> ltkn gst Hst; pose m := n - k.+1.
have Hn : n = k + m.+1 by rewrite addnS -addSn subnKC.
rewrite /pivot_step.
have [] := @find_pivotP n (mat st) n k k (leq_subr _ _) (ltnW ltkn).
set pv := find_pivot _ _ _ _ _ => /andP[le1 le2] Hz Hnz.
case: eqP => [//|/eqP Npv].
have ltpv : pv < n by rewrite ltn_neqAle Npv le2.
have [g1 Hget1 Hdet1] := swap_state gst le1.
set st1 := exchange k pv st in g1 Hget1 Hdet1 *.
have akk1 : get (mat st1) k k <> 0%Z.
  rewrite Hget1 eqxx.
  have -> : (if k == pv then k else pv) = pv by case: eqP.
  exact: Hnz.
have [g2 _ _ Hzero _] := elim_rows Hn g1 akk1.
have Hleft := elim_rows_left ltkn g1 akk1.
split=> // i j; rewrite ltnS leq_eqVlt => /orP[/eqP ->|ltj] ij; first exact: Hzero.
rewrite Hleft // Hget1; apply: Hst => //.
case/andP: ij => ji lti.
case: eqP => _; first by rewrite ltj.
by case: eqP => _; rewrite ?ltpv ?(leq_trans ltj le1) ?ji ?lti.
Qed.

Lemma run_echelon A :
  (forall i j, in_field (get A i j)) ->
  let r := modularDeterminant_run A in
  r.1 != 0%Z -> echelon (size A) (size A) (mat r.2).
Proof.
move=> redA; rewrite /modularDeterminant_run.
set n := size A; set st0 := set_det _ _.
pose I k st := good st /\ echelon n k (mat st).
have I0 : I 0 st0 by split.
have step k t : 0 <= k < 0 + n -> I k t ->
    match pivot_step n k t with
    | inl e => e.1 = 0%Z | inr t' => I k.+1 t'
    end.
  by rewrite add0n => /andP[_ ltk] [gt Ht]; apply: pivot_step_echelon.
have := for_loop_inv (Q := fun r : Z * state => r.1 = 0%Z) I0 step.
case: (for_loop _ _ _ _) => [[v t] /= -> //|st [gst Hst] /= _].
by have [_ -> _] := diag_loop n gst.
Qed.

(** X24: modularDeterminant works in place: when its result on an n x n matrix
    with entries in [0, p-1] is not 0, it leaves the matrix upper triangular,
    every entry below the diagonal being 0, with entries in [0, p-1]. *)
Theorem modularDeterminant_leaves_triangular n A :
  square n A -> reduced A ->
  modularDeterminant A != 0%Z ->
  let A' := mat (modularDeterminant_run A).2 in
  (forall i j, j < i < n -> get A' i j = 0%Z) /\
  (forall i j, in_field (get A' i j)).
Proof.
move=> /square_size sz redA nz /=.
have HA i j := reduced_get i j redA.
split=> [i j /andP[ji lti]|].
  by apply: (run_echelon HA nz); rewrite sz ?ji // (leq_ltn_trans _ lti) // ltnW.
by have [_ []] := modularDeterminant_runP HA.
Qed.

Lemma modularDeterminant_leaves_triangular_witness :
  let A' := mat (modularDeterminant_run A3).2 in
  (forall i j, j < i < 3 -> get A' i j = 0%Z) /\
  (forall i j, in_field (get A' i j)).
Proof. by apply: (@modularDeterminant_leaves_triangular 3 A3); vm_compute. Defined.

(* --- main() ------------------------------------------------------------- *)

(* main(): the lines written to std::cout and the returned value; draws1
   and draws2 are what the generators of the two calls yield *)
Definition main (draws1 draws2 : nat -> Z) : option (seq string * Z) :=
  if hasPerfectMatching graph1 draws1 is Some result1 then
    if hasPerfectMatching graph2 draws2 is Some result2 then
      Some ([:: String.append "Checking graph 1 (has matching): "
                  (if result1 then "Matching likely found"
                   else "No matching")%string;
                String.append "Checking graph 2 (no matching): "
                  (if result2 then "Matching likely found (False Positive)"
                   else "No matching")%string],
            0%Z)
    else None
  else None.

Lemma no_matching_false n graph draws :
  square n graph -> (forall t, in_field (draws t)) ->
  ~ perfect_matching n graph ->
  hasPerfectMatching graph draws = Some false.
Proof.
move=> sq Hd Hno; rewrite (hasPerfectMatchingE sq Hd).
rewrite (@determinant_no_matching n graph) // => i j /eqP/negPf Hg.
by rewrite get_mkseq Hg if_same.
Qed.

(** X25: main() writes the same two lines whatever values of [1, p-1] the two
    generators yield: graph 1 has a single perfect matching, which is always
    found, graph 2 has none, and there is no false positive; main returns
    0. *)
Theorem matching_main_output draws1 draws2 :
  (forall t, (1 <= draws1 t <= p - 1)%Z) ->
  (forall t, (1 <= draws2 t <= p - 1)%Z) ->
  main draws1 draws2 =
  Some ([:: "Checking graph 1 (has matching): Matching likely found"%string;
            "Checking graph 2 (no matching): No matching"%string],
        0%Z).
Proof.
move=> H1 H2; rewrite /main.
rewrite (@unique_matching_true 3 graph1 draws1 matching1 _ H1 matching1_edges
           matching1_unique) //.
by rewrite (@no_matching_false 3 graph2 draws2 _ (draws_in_field H2)
              graph2_no_matching).
Qed.

Lemma matching_main_output_witness :
  main cycle_draws (fun=> 7%Z) =
  Some ([:: "Checking graph 1 (has matching): Matching likely found"%string;
            "Checking graph 2 (no matching): No matching"%string],
        0%Z).
Proof. by apply: matching_main_output => // t; apply: cycle_draws_range. Defined.

End Matching.
